(** * tmpfiles-audit: symlink declarations of tmpfiles.d checked against the filesystem

    A shallow embedding of [main.go] and of its earlier revision, and the
    properties of the specification proved (or refuted) on it.

    Text is modelled as the sequence of its Unicode code points, which is what
    the Go functions used here observe on well-formed UTF-8: the regular
    expression engine, [strings.TrimSpace] and [strings.Fields] decode runes,
    and the byte-oriented functions ([strings.HasPrefix], [filepath.Clean],
    ...) only ever look for ASCII characters, which UTF-8 never uses inside a
    longer sequence.

    The filesystem is a read interface (glob, open, stat, read-dir); the
    program threads a world made of that filesystem and of the log of every
    call and every message it printed. *)

From Stdlib Require Import NArith.
From stdpp Require Import gmap strings list fin_maps.

Open Scope N_scope.

(** ** Text *)

Definition rune := N.
Abbreviation str := (list rune).

(** A Go string literal. *)
Definition go (s : string) : str := map Ascii.N_of_ascii (String.list_ascii_of_string s).

Module Strings.

(** [unicode.IsSpace]: the code points with the Unicode property
    White_Space. *)
Definition IsSpace (r : rune) : bool :=
  (9 <=? r) && (r <=? 13)
  || (r =? 32) || (r =? 133) || (r =? 160) || (r =? 5760)
  || (8192 <=? r) && (r <=? 8202)
  || (r =? 8232) || (r =? 8233) || (r =? 8239) || (r =? 8287) || (r =? 12288).

Definition eqb (a b : str) : bool := bool_decide (a = b).

(** [strings.HasPrefix]. *)
Fixpoint HasPrefix (s p : str) : bool :=
  match p, s with
  | [], _ => true
  | _ :: _, [] => false
  | c :: p', d :: s' => (c =? d) && HasPrefix s' p'
  end.

(** [strings.TrimPrefix]: [s] without the leading [p], or [s] itself. *)
Definition TrimPrefix (s p : str) : str :=
  if HasPrefix s p then drop (length p) s else s.

(** [strings.Contains]. *)
Fixpoint Contains (s sub : str) : bool :=
  HasPrefix s sub ||
  match s with
  | [] => false
  | _ :: s' => Contains s' sub
  end.

(** [strings.TrimLeftFunc] and [strings.TrimRightFunc]. *)
Fixpoint TrimLeftFunc (f : rune -> bool) (s : str) : str :=
  match s with
  | c :: s' => if f c then TrimLeftFunc f s' else s
  | [] => []
  end.

(** The longest prefix whose characters all satisfy [f]. *)
Fixpoint takeWhile (f : rune -> bool) (s : str) : str :=
  match s with
  | c :: s' => if f c then c :: takeWhile f s' else []
  | [] => []
  end.

Definition TrimRightFunc (f : rune -> bool) (s : str) : str :=
  rev (TrimLeftFunc f (rev s)).

Definition TrimFunc (f : rune -> bool) (s : str) : str :=
  TrimRightFunc f (TrimLeftFunc f s).

(** [strings.TrimSpace]. *)
Definition TrimSpace (s : str) : str := TrimFunc IsSpace s.

(** [strings.Trim s cutset]: leading and trailing characters of the cutset
    removed. *)
Definition Trim (s cutset : str) : str :=
  TrimFunc (fun c => existsb (N.eqb c) cutset) s.

(** [strings.Fields]: the maximal runs of non-space characters.  [cur] is
    the field being read, in reverse. *)
Fixpoint fields_go (s : str) (cur : str) : list str :=
  match s with
  | [] => match cur with [] => [] | _ => [rev cur] end
  | c :: s' =>
      if IsSpace c
      then match cur with
           | [] => fields_go s' []
           | _ => rev cur :: fields_go s' []
           end
      else fields_go s' (c :: cur)
  end.

Definition Fields (s : str) : list str := fields_go s [].

(** [strings.Join]. *)
Fixpoint Join (elems : list str) (sep : str) : str :=
  match elems with
  | [] => []
  | [e] => e
  | e :: rest => e ++ sep ++ Join rest sep
  end.

End Strings.

(** ** Paths ([path/filepath] on Unix) *)

Module Filepath.

Definition Separator : rune := 47.
Definition dot : rune := 46.

(** The elements of a path: the text between separators. *)
Fixpoint split_go (s : str) (cur : str) : list str :=
  match s with
  | [] => [rev cur]
  | c :: s' =>
      if c =? Separator then rev cur :: split_go s' [] else split_go s' (c :: cur)
  end.

Definition elements (s : str) : list str := split_go s [].

(** One element read by [Clean].  [out] is the output buffer as a stack of
    elements, last one first: a (possibly empty) run of [..] under real
    names, the run of [..] being what the index [dotdot] of the code
    protects. *)
Definition clean_step (rooted : bool) (out : list str) (e : str) : list str :=
  if Strings.eqb e [] then out
  else if Strings.eqb e [dot] then out
  else if Strings.eqb e [dot; dot] then
    match out with
    | top :: below =>
        if Strings.eqb top [dot; dot] then e :: out else below
    | [] => if rooted then out else [e]
    end
  else e :: out.

(** [filepath.Clean]. *)
Definition Clean (path : str) : str :=
  match path with
  | [] => [dot]
  | c :: _ =>
      let rooted := c =? Separator in
      let out := rev (fold_left (clean_step rooted) (elements path) []) in
      let body := Strings.Join out [Separator] in
      if rooted then Separator :: body
      else match body with [] => [dot] | _ => body end
  end.

(** [filepath.IsAbs]. *)
Definition IsAbs (path : str) : bool := Strings.HasPrefix path [Separator].

(** The part of [path] up to and including its last separator, as the loop
    of [Dir] finds it. *)
Definition upto_last_sep (path : str) : str :=
  rev (Strings.TrimLeftFunc (fun c => negb (c =? Separator)) (rev path)).

(** [filepath.Dir]. *)
Definition Dir (path : str) : str := Clean (upto_last_sep path).

(** The part of [path] after its last separator. *)
Definition after_last_sep (path : str) : str :=
  rev (Strings.takeWhile (fun c => negb (c =? Separator)) (rev path)).

(** [filepath.Base]. *)
Definition Base (path : str) : str :=
  match path with
  | [] => [dot]
  | _ =>
      let p := Strings.TrimRightFunc (fun c => c =? Separator) path in
      match after_last_sep p with
      | [] => [Separator]
      | b => b
      end
  end.

(** [filepath.Join] of two elements. *)
Definition Join (a b : str) : str :=
  match a, b with
  | [], [] => []
  | [], _ => Clean b
  | _, _ => Clean (a ++ Separator :: b)
  end.

End Filepath.

(** ** Regular expressions ([regexp])

    The two patterns of the program are anchored at both ends and are
    sequences of literal characters, starred or plussed character classes and
    capture parentheses.  [run] is the backtracking matcher whose first
    success Go's leftmost-first semantics returns: a repetition takes as much
    as it can and gives back one character at a time. *)

Module Regexp.

Inductive class :=
| CSet (cs : list rune)   (* [abc] *)
| CSpace                  (* \s *)
| CNotSpace               (* [^\s] *)
| CDot.                   (* . *)

(** The class \s of RE2: tab, newline, form feed, carriage return, space. *)
Definition space (r : rune) : bool :=
  (r =? 9) || (r =? 10) || (r =? 12) || (r =? 13) || (r =? 32).

Definition in_class (k : class) (r : rune) : bool :=
  match k with
  | CSet cs => existsb (N.eqb r) cs
  | CSpace => space r
  | CNotSpace => negb (space r)
  | CDot => negb (r =? 10)
  end.

Inductive item :=
| Lit (c : rune)
| Star (k : class)
| Plus (k : class)
| Open
| Close.

Abbreviation regex := (list item).

(** The text of the group being read, in reverse, when one is open. *)
Definition push (c : rune) (cur : option str) : option str :=
  match cur with
  | Some g => Some (c :: g)
  | None => None
  end.

Section Star.
Context {R : Type} (cl : class) (k : str -> option str -> option R).

(** A greedy repetition followed by the continuation [k]. *)
Fixpoint star (s : str) (cur : option str) : option R :=
  match s with
  | d :: s' =>
      if in_class cl d
      then match star s' (push d cur) with
           | Some r => Some r
           | None => k s cur
           end
      else k s cur
  | [] => k s cur
  end.
End Star.

(** [caps] are the groups already closed, last one first. *)
Fixpoint run (p : regex) (s : str) (cur : option str) (caps : list str)
  : option (list str) :=
  match p with
  | [] => match s with [] => Some (rev caps) | _ :: _ => None end
  | Lit c :: p' =>
      match s with
      | d :: s' => if c =? d then run p' s' (push d cur) caps else None
      | [] => None
      end
  | Star cl :: p' => star cl (fun s cur => run p' s cur caps) s cur
  | Plus cl :: p' =>
      match s with
      | d :: s' =>
          if in_class cl d
          then star cl (fun s cur => run p' s cur caps) s' (push d cur)
          else None
      | [] => None
      end
  | Open :: p' => run p' s (Some []) caps
  | Close :: p' =>
      run p' s None (match cur with Some g => rev g :: caps | None => caps end)
  end.


(** [FindStringSubmatch] of a compiled pattern, for a pattern anchored by ^ and $: the
    whole text, then the groups. *)
Definition FindStringSubmatch (p : regex) (s : str) : option (list str) :=
  match run p s None [] with
  | Some groups => Some (s :: groups)
  | None => None
  end.

(** The group being read after the text [w] has gone by. *)
Definition pushes (w : str) (cur : option str) : option str :=
  match cur with
  | Some g => Some (rev w ++ g)
  | None => None
  end.

Definition close (cur : option str) (caps : list str) : list str :=
  match cur with Some g => rev g :: caps | None => caps end.

(** What it means for a text to match with given groups, without any
    strategy: a repetition may stop anywhere. *)
Inductive parses : regex -> str -> option str -> list str -> list str -> Prop :=
| parses_end cur caps : parses [] [] cur caps (rev caps)
| parses_lit c p s cur caps r :
    parses p s (push c cur) caps r -> parses (Lit c :: p) (c :: s) cur caps r
| parses_star cl p w s cur caps r :
    forallb (in_class cl) w = true ->
    parses p s (pushes w cur) caps r ->
    parses (Star cl :: p) (w ++ s) cur caps r
| parses_plus cl p w s cur caps r :
    w <> [] -> forallb (in_class cl) w = true ->
    parses p s (pushes w cur) caps r ->
    parses (Plus cl :: p) (w ++ s) cur caps r
| parses_open p s cur caps r :
    parses p s (Some []) caps r -> parses (Open :: p) s cur caps r
| parses_close p s cur caps r :
    parses p s None (close cur caps) r -> parses (Close :: p) s cur caps r.

Definition matches (p : regex) (s : str) : Prop :=
  exists groups, parses p s None [] groups.

End Regexp.

(** ** Functions shared by both revisions *)

Definition dquote : rune := 34.
Definition squote : rune := 39.

(** [cleanQuotes]. *)
Definition cleanQuotes (s : str) : str :=
  let s := Strings.TrimSpace s in
  let s := Strings.Trim s [dquote] in
  let s := Strings.Trim s [squote] in
  s.

(** [factoryTarget]. *)
Definition factoryTarget (path : str) : str :=
  let filename := Filepath.Base path in
  if Strings.eqb filename (go "etc") || Strings.HasPrefix path (go "/etc/") then
    go "/usr/share/factory/etc/" ++ Strings.TrimPrefix path (go "/etc/")
  else if Strings.eqb filename (go "var") || Strings.HasPrefix path (go "/var/") then
    go "/usr/share/factory/var/" ++ Strings.TrimPrefix path (go "/var/")
  else
    go "/usr/share/factory" ++ path.

(** ** The world: a read-only filesystem and a log *)

Record DirEntry := { Name : str; IsDir : bool }.

(** What the program can observe of the filesystem.  [fs_stat p] says that
    [os.Stat p] returned no error, [fs_open p] is the lines
    a [bufio.Scanner] yields when [os.Open p] succeeds, [fs_readDir p] is the
    listing when [os.ReadDir p] returns no error (the code drops the listing
    otherwise).  [filepath.Glob] only ever fails on a malformed pattern and
    both patterns of the program are well formed, so [fs_glob] is total. *)
Record FS := {
  fs_glob : str -> list str;
  fs_open : str -> option (list str);
  fs_stat : str -> bool;
  fs_readDir : str -> option (list DirEntry)
}.

(** The calls of package [os] and [filepath] that reach the filesystem: the
    four reads the program uses, and the writes a tool that created the
    declared symlinks would need. *)
Inductive syscall :=
| SGlob (pattern : str)
| SOpen (path : str)
| SStat (path : str)
| SReadDir (path : str)
| SSymlink (oldname newname : str)
| SRemove (path : str).

Definition readonly (c : syscall) : bool :=
  match c with
  | SGlob _ | SOpen _ | SStat _ | SReadDir _ => true
  | SSymlink _ _ | SRemove _ => false
  end.

(** The messages, by what they say rather than by their text and colour. *)
Inductive msg :=
| MFactoryDefault (path ft : str)
| MFactoryExists (ft : str)
| MFactoryMissingOptional (ft : str)
| MFactoryMissing (ft : str)
| MExplicit (path target : str)
| MResolved (resolved : str)
| MTargetExists (target : str)
| MTargetMissingOptional (target : str)
| MTargetMissing (target : str)
| MRecreateNote
| MIgnoreRule (line file : str)
| MIncomplete (dir : str) (missing : list str)
| MOpenError (file : str)
| MSummaryHeader
| MSummaryUnreadable (dir : str)
| MSummaryDir (dir : str) (incomplete : bool)
| MSummaryLinked (names : list str)
| MSummaryIgnored (names : list str)
| MSummaryMissing (names : list str)
| MSummaryAllLinked.

Inductive event :=
| Sys (c : syscall)
| Stdout (m : msg)
| Stderr (m : msg).

(** The errors built by [fmt.Errorf]. *)
Inductive error :=
| ErrMissingFactoryTarget (ft : str)
| ErrMissingTarget (target : str)
| ErrIncomplete.

(** A computation that logs what it does. *)
Definition W (A : Type) : Type := A * list event.

Definition ret {A} (a : A) : W A := (a, []).

Definition bind {A B} (m : W A) (f : A -> W B) : W B :=
  let '(a, l1) := m in
  let '(b, l2) := f a in
  (b, l1 ++ l2).

Notation "x <- m ;; k" := (bind m (fun x => k))
  (at level 100, m at next level, k at level 200, right associativity).
Notation "m ;; k" := (bind m (fun _ => k))
  (at level 100, k at level 200, right associativity).

Definition Printf (m : msg) : W unit := (tt, [Stdout m]).
Definition Fprintf_stderr (m : msg) : W unit := (tt, [Stderr m]).

Definition Glob (fs : FS) (pattern : str) : W (list str) :=
  (fs_glob fs pattern, [Sys (SGlob pattern)]).
Definition Open (fs : FS) (path : str) : W (option (list str)) :=
  (fs_open fs path, [Sys (SOpen path)]).
Definition Stat (fs : FS) (path : str) : W bool :=
  (fs_stat fs path, [Sys (SStat path)]).
Definition ReadDir (fs : FS) (path : str) : W (option (list DirEntry)) :=
  (fs_readDir fs path, [Sys (SReadDir path)]).

(** [for _, x := range xs { s = body x s }]. *)
Fixpoint forM {A S} (xs : list A) (body : A -> S -> W S) (s : S) : W S :=
  match xs with
  | [] => ret s
  | x :: xs' => s' <- body x s ;; forM xs' body s'
  end.

(** [map[string]map[string]bool] and [map[string]bool]; a key that is absent
    reads as [false]. *)
Abbreviation files := (gmap str bool).
Abbreviation dirs := (gmap str (gmap str bool)).

Definition has (m : files) (k : str) : bool := default false (m !! k).

(** The update both revisions make once a target is accepted:
    [linkedDirs[dir]] is created if need be and [linkedDirs[dir][base]] set. *)
Definition record (dir base : str) (linkedDirs : dirs) : dirs :=
  <[dir := <[base := true]> (default ∅ (linkedDirs !! dir))]> linkedDirs.

(** [loadIgnoreFiles]. *)
Definition loadIgnoreFiles (fs : FS) : W files :=
  fls <- Glob fs (go "/usr/share/tmpfiles.d/*.ignore") ;;
  forM fls (fun file ignoredFiles =>
    f <- Open fs file ;;
    match f with
    | None => ret ignoredFiles
    | Some lines =>
        forM lines (fun text ignoredFiles =>
          let line := Strings.TrimSpace text in
          if Strings.eqb line [] || Strings.HasPrefix line (go "#")
          then ret ignoredFiles
          else Printf (MIgnoreRule line file) ;; ret (<[line := true]> ignoredFiles))
          ignoredFiles
    end) ∅.

(** The inner loop of [checkDirectoryCompleteness]: the names of the entries
    that are files, not ignored and not linked. *)
Fixpoint missingFiles (dir : str) (linkedFiles ignoredFiles : files)
    (entries : list DirEntry) : list str :=
  match entries with
  | [] => []
  | entry :: rest =>
      if IsDir entry then missingFiles dir linkedFiles ignoredFiles rest
      else
        let fullPath := Filepath.Join dir (Name entry) in
        if has ignoredFiles fullPath then missingFiles dir linkedFiles ignoredFiles rest
        else if negb (has linkedFiles (Name entry))
        then Name entry :: missingFiles dir linkedFiles ignoredFiles rest
        else missingFiles dir linkedFiles ignoredFiles rest
  end.

(** The inner loop of [printSummary]: missing, ignored and linked names. *)
Fixpoint classify (dir : str) (linkedFiles ignoredFiles : files)
    (entries : list DirEntry) : list str * list str * list str :=
  match entries with
  | [] => ([], [], [])
  | entry :: rest =>
      let '(missing, ignored, actualLinked) :=
        classify dir linkedFiles ignoredFiles rest in
      if IsDir entry then (missing, ignored, actualLinked)
      else
        let fullPath := Filepath.Join dir (Name entry) in
        if has ignoredFiles fullPath then (missing, Name entry :: ignored, actualLinked)
        else if has linkedFiles (Name entry)
        then (missing, ignored, Name entry :: actualLinked)
        else (Name entry :: missing, ignored, actualLinked)
  end.

(** The report of [printSummary] for one directory that could be read. *)
Definition summarize (dir : str) (linkedFiles ignoredFiles : files)
    (entries : list DirEntry) : W unit :=
  let '(missing, ignored, actualLinked) :=
    classify dir linkedFiles ignoredFiles entries in
  Printf (MSummaryDir dir (match missing with [] => false | _ => true end)) ;;
  (match actualLinked with [] => ret tt | _ => Printf (MSummaryLinked actualLinked) end) ;;
  (match ignored with [] => ret tt | _ => Printf (MSummaryIgnored ignored) end) ;;
  match missing with
  | [] => Printf MSummaryAllLinked
  | _ => Printf (MSummaryMissing missing)
  end.

(** ** The earlier revision (the first program of [main.go]) *)

Module Early.

(** The pattern: ^L \s+ ([^\s]+) \s+ [^\s]* \s+ [^\s]* \s+ [^\s]* \s+ then a
    group made of any number of . and $ *)
Definition lineRegex : Regexp.regex :=
  Regexp.Lit 76 :: Regexp.Plus Regexp.CSpace
  :: Regexp.Open :: Regexp.Plus Regexp.CNotSpace :: Regexp.Close
  :: Regexp.Plus Regexp.CSpace :: Regexp.Star Regexp.CNotSpace
  :: Regexp.Plus Regexp.CSpace :: Regexp.Star Regexp.CNotSpace
  :: Regexp.Plus Regexp.CSpace :: Regexp.Star Regexp.CNotSpace
  :: Regexp.Plus Regexp.CSpace
  :: Regexp.Open :: Regexp.Star Regexp.CDot :: Regexp.Close :: [].

(** [isBaseDir]. *)
Definition isBaseDir (dir : str) : bool :=
  let baseDirs :=
    [go "/etc"; go "/var"; go "/usr"; go "/bin"; go "/sbin"; go "/lib"; go "/lib64"] in
  existsb (Strings.eqb dir) baseDirs.

(** [processLine]: the error returned and [linkedDirs] as the call leaves it. *)
Definition processLine (fs : FS) (line : str) (linkedDirs : dirs)
  : W (option error * dirs) :=
  match Regexp.FindStringSubmatch lineRegex line with
  | None => ret (None, linkedDirs)
  | Some matches =>
      let path := nth 1 matches [] in
      let target := cleanQuotes (nth 2 matches []) in
      if Strings.eqb target [] || Strings.eqb target (go "-") then
        let ft := factoryTarget path in
        Printf (MFactoryDefault path ft) ;;
        ok <- Stat fs ft ;;
        if ok then
          Printf (MFactoryExists ft) ;;
          ret (None, linkedDirs)
        else
          Printf (MFactoryMissing ft) ;;
          ret (Some (ErrMissingFactoryTarget ft), linkedDirs)
      else
        Printf (MExplicit path target) ;;
        ok <- Stat fs target ;;
        if ok then
          Printf (MTargetExists target) ;;
          let dir := Filepath.Dir target in
          if negb (isBaseDir dir)
          then ret (None, record dir (Filepath.Base target) linkedDirs)
          else ret (None, linkedDirs)
        else
          Printf (MTargetMissing target) ;;
          ret (Some (ErrMissingTarget target), linkedDirs)
  end.

(** The body of the loop of [checkDirectoryCompleteness]. *)
Definition checkDirectory (fs : FS) (ignoredFiles : files)
    (d : str * files) (hadError : bool) : W bool :=
  let '(dir, linkedFiles) := d in
  r <- ReadDir fs dir ;;
  match r with
  | None => ret hadError
  | Some entries =>
      match missingFiles dir linkedFiles ignoredFiles entries with
      | [] => ret hadError
      | missing => Printf (MIncomplete dir missing) ;; ret true
      end
  end.

(** [checkDirectoryCompleteness].  Go ranges over a map in an unspecified
    order; the order of [map_to_list] stands for it and no result below
    depends on which order it is. *)
Definition checkDirectoryCompleteness (fs : FS) (linkedDirs : dirs)
    (ignoredFiles : files) : W (option error) :=
  hadError <- forM (map_to_list linkedDirs) (checkDirectory fs ignoredFiles) false ;;
  if hadError then ret (Some ErrIncomplete) else ret None.

(** [printSummary]. *)
Definition printSummary (fs : FS) (linkedDirs : dirs) (ignoredFiles : files)
  : W unit :=
  Printf MSummaryHeader ;;
  forM (map_to_list linkedDirs) (fun d _ =>
    let '(dir, linkedFiles) := d in
    r <- ReadDir fs dir ;;
    match r with
    | None => Printf (MSummaryUnreadable dir)
    | Some entries => summarize dir linkedFiles ignoredFiles entries
    end) tt.

(** The loop of [main] over the lines of one file. *)
Definition scanLine (fs : FS) (line : str) (st : Z * dirs) : W (Z * dirs) :=
  let '(exitCode, linkedDirs) := st in
  if negb (Strings.HasPrefix line (go "L"))
     || Strings.HasPrefix line (go "L?")
     || Strings.HasPrefix line (go "L+")
  then ret (exitCode, linkedDirs)
  else
    r <- processLine fs line linkedDirs ;;
    match r with
    | (Some _, linkedDirs) => ret (1%Z, linkedDirs)
    | (None, linkedDirs) => ret (exitCode, linkedDirs)
    end.

(** The loop of [main] over the configuration files. *)
Definition scanFile (fs : FS) (file : str) (st : Z * dirs) : W (Z * dirs) :=
  f <- Open fs file ;;
  match f with
  | None => Fprintf_stderr (MOpenError file) ;; ret (1%Z, snd st)
  | Some lines => forM lines (scanLine fs) st
  end.

Definition scanConfigs (fs : FS) : W (Z * dirs) :=
  fls <- Glob fs (go "/usr/lib/tmpfiles.d/*.conf") ;;
  forM fls (scanFile fs) (0%Z, ∅).

(** [main]: the code given to [os.Exit]. *)
Definition main (fs : FS) : W Z :=
  st <- scanConfigs fs ;;
  let '(exitCode, linkedDirs) := st in
  ignoredFiles <- loadIgnoreFiles fs ;;
  err <- checkDirectoryCompleteness fs linkedDirs ignoredFiles ;;
  let exitCode := match err with Some _ => 1%Z | None => exitCode end in
  printSummary fs linkedDirs ignoredFiles ;;
  ret exitCode.

End Early.

(** ** The later revision (the second program of [main.go]) *)

Module Later.

(** The pattern: ^L [\?\+]* \s+ ([^\s]+) \s+ [^\s]* \s+ [^\s]* \s+ [^\s]* \s+
    then a group made of any number of . and $ *)
Definition lineRegex : Regexp.regex :=
  Regexp.Lit 76 :: Regexp.Star (Regexp.CSet [63; 43]) :: Regexp.Plus Regexp.CSpace
  :: Regexp.Open :: Regexp.Plus Regexp.CNotSpace :: Regexp.Close
  :: Regexp.Plus Regexp.CSpace :: Regexp.Star Regexp.CNotSpace
  :: Regexp.Plus Regexp.CSpace :: Regexp.Star Regexp.CNotSpace
  :: Regexp.Plus Regexp.CSpace :: Regexp.Star Regexp.CNotSpace
  :: Regexp.Plus Regexp.CSpace
  :: Regexp.Open :: Regexp.Star Regexp.CDot :: Regexp.Close :: [].

(** [resolveTargetPath]. *)
Definition resolveTargetPath (symlinkPath target : str) : str :=
  if Filepath.IsAbs target then target
  else
    let symlinkDir := Filepath.Dir symlinkPath in
    Filepath.Clean (Filepath.Join symlinkDir target).

(** [isBaseDir]. *)
Definition isBaseDir (dir : str) : bool :=
  let baseDirs :=
    [go "/etc"; go "/var"; go "/usr"; go "/bin"; go "/sbin"; go "/lib"; go "/lib64";
     go "/proc"; go "/run"] in
  existsb (Strings.eqb dir) baseDirs.

(** The directive at the head of a line that starts with L: [line[:2]] when
    the second character is ? or +, [line[:1]] otherwise. *)
Definition directive (line : str) : str :=
  match line with
  | c0 :: c1 :: _ => if (c1 =? 63) || (c1 =? 43) then [c0; c1] else [c0]
  | _ => take 1 line
  end.

(** The target of a declaration: the last field of what follows the
    placeholders. *)
Definition targetOf (targetField : str) : str :=
  let fields := Strings.Fields targetField in
  match fields with
  | [] => []
  | _ :: _ => cleanQuotes (List.last fields [])
  end.

(** The tracking step shared by the two branches of [processLine]. *)
Definition track (resolved : str) (linkedDirs : dirs) : dirs :=
  let dir := Filepath.Dir resolved in
  if negb (isBaseDir dir)
  then record dir (Filepath.Base resolved) linkedDirs
  else linkedDirs.

(** The end of [processLine]: the note for L+, then [return nil]. *)
Definition finish (recreate : bool) (linkedDirs : dirs) : W (option error * dirs) :=
  (if recreate then Printf MRecreateNote else ret tt) ;;
  ret (None, linkedDirs).

(** [processLine]. *)
Definition processLine (fs : FS) (line : str) (linkedDirs : dirs)
  : W (option error * dirs) :=
  if negb (Strings.HasPrefix line (go "L")) then ret (None, linkedDirs)
  else
    let prefix := directive line in
    let targetOptional := Strings.eqb prefix (go "L?") in
    let recreate := Strings.eqb prefix (go "L+") in
    match Regexp.FindStringSubmatch lineRegex line with
    | None => ret (None, linkedDirs)
    | Some matches =>
        let path := nth 1 matches [] in
        let target := targetOf (nth 2 matches []) in
        if Strings.eqb target [] || Strings.eqb target (go "-") then
          let ft := factoryTarget path in
          Printf (MFactoryDefault path ft) ;;
          ok <- Stat fs ft ;;
          if ok then
            Printf (MFactoryExists ft) ;;
            finish recreate (track ft linkedDirs)
          else if targetOptional then
            Printf (MFactoryMissingOptional ft) ;;
            finish recreate (track ft linkedDirs)
          else
            Printf (MFactoryMissing ft) ;;
            ret (Some (ErrMissingFactoryTarget ft), linkedDirs)
        else
          let resolvedTarget := resolveTargetPath path target in
          Printf (MExplicit path target) ;;
          (if Strings.eqb resolvedTarget target then ret tt
           else Printf (MResolved resolvedTarget)) ;;
          ok <- Stat fs resolvedTarget ;;
          if ok then
            Printf (MTargetExists resolvedTarget) ;;
            finish recreate (track resolvedTarget linkedDirs)
          else if targetOptional then
            Printf (MTargetMissingOptional resolvedTarget) ;;
            finish recreate linkedDirs
          else
            Printf (MTargetMissing resolvedTarget) ;;
            ret (Some (ErrMissingTarget resolvedTarget), linkedDirs)
    end.

(** The directories neither checked nor summarized. *)
Definition skipped (dir : str) : bool :=
  Strings.Contains dir (go "/.git") || Strings.eqb dir (go ".")
  || Strings.eqb dir (go "..").

(** The body of the loop of [checkDirectoryCompleteness]. *)
Definition checkDirectory (fs : FS) (ignoredFiles : files)
    (d : str * files) (hadError : bool) : W bool :=
  let '(dir, linkedFiles) := d in
  if skipped dir then ret hadError
  else
    r <- ReadDir fs dir ;;
    match r with
    | None => ret hadError
    | Some entries =>
        match missingFiles dir linkedFiles ignoredFiles entries with
        | [] => ret hadError
        | missing => Printf (MIncomplete dir missing) ;; ret true
        end
    end.

(** [checkDirectoryCompleteness], with the same reading of [range] as in
    the earlier revision. *)
Definition checkDirectoryCompleteness (fs : FS) (linkedDirs : dirs)
    (ignoredFiles : files) : W (option error) :=
  hadError <- forM (map_to_list linkedDirs) (checkDirectory fs ignoredFiles) false ;;
  if hadError then ret (Some ErrIncomplete) else ret None.

(** [printSummary]. *)
Definition printSummary (fs : FS) (linkedDirs : dirs) (ignoredFiles : files)
  : W unit :=
  Printf MSummaryHeader ;;
  forM (map_to_list linkedDirs) (fun d _ =>
    let '(dir, linkedFiles) := d in
    if skipped dir then ret tt
    else
      r <- ReadDir fs dir ;;
      match r with
      | None => Printf (MSummaryUnreadable dir)
      | Some entries => summarize dir linkedFiles ignoredFiles entries
      end) tt.

(** The loop of [main] over the lines of one file. *)
Definition scanLine (fs : FS) (text : str) (st : Z * dirs) : W (Z * dirs) :=
  let '(exitCode, linkedDirs) := st in
  let line := Strings.TrimSpace text in
  if Strings.eqb line [] || Strings.HasPrefix line (go "#")
  then ret (exitCode, linkedDirs)
  else if Strings.HasPrefix line (go "L") then
    r <- processLine fs line linkedDirs ;;
    match r with
    | (Some _, linkedDirs) => ret (1%Z, linkedDirs)
    | (None, linkedDirs) => ret (exitCode, linkedDirs)
    end
  else ret (exitCode, linkedDirs).

(** The loop of [main] over the configuration files. *)
Definition scanFile (fs : FS) (file : str) (st : Z * dirs) : W (Z * dirs) :=
  f <- Open fs file ;;
  match f with
  | None => Fprintf_stderr (MOpenError file) ;; ret (1%Z, snd st)
  | Some lines => forM lines (scanLine fs) st
  end.

Definition scanConfigs (fs : FS) : W (Z * dirs) :=
  fls <- Glob fs (go "/usr/lib/tmpfiles.d/*.conf") ;;
  forM fls (scanFile fs) (0%Z, ∅).

(** [main]: the code given to [os.Exit]. *)
Definition main (fs : FS) : W Z :=
  st <- scanConfigs fs ;;
  let '(exitCode, linkedDirs) := st in
  ignoredFiles <- loadIgnoreFiles fs ;;
  err <- checkDirectoryCompleteness fs linkedDirs ignoredFiles ;;
  let exitCode := match err with Some _ => 1%Z | None => exitCode end in
  printSummary fs linkedDirs ignoredFiles ;;
  ret exitCode.

End Later.

(** ** Reading the result of a run *)

(** The value and the log of a computation. *)
Definition val {A} (m : W A) : A := fst m.
Definition log {A} (m : W A) : list event := snd m.

(** The calls to the filesystem found in a log. *)
Definition syscalls (l : list event) : list syscall :=
  omap (fun e => match e with Sys c => Some c | _ => None end) l.

(** A filesystem with nothing in it. *)
Definition fs_nothing : FS :=
  {| fs_glob := fun _ => []; fs_open := fun _ => None;
     fs_stat := fun _ => false; fs_readDir := fun _ => None |}.

(** A filesystem whose only configuration file is
    [/usr/lib/tmpfiles.d/a.conf] with the given lines, without ignore files. *)
Definition fs_one_conf (lines : list str) (present : str -> bool)
    (listing : str -> option (list DirEntry)) : FS :=
  {| fs_glob := fun pattern =>
       if Strings.eqb pattern (go "/usr/lib/tmpfiles.d/*.conf")
       then [go "/usr/lib/tmpfiles.d/a.conf"] else [];
     fs_open := fun path =>
       if Strings.eqb path (go "/usr/lib/tmpfiles.d/a.conf") then Some lines else None;
     fs_stat := present;
     fs_readDir := listing |}.

(** A factory tree where [/usr/share/factory/etc] holds the single file
    [bar] and nothing else exists. *)
Definition factory_etc_bar (path : str) : option (list DirEntry) :=
  if Strings.eqb path (go "/usr/share/factory/etc")
  then Some [{| Name := go "bar"; IsDir := false |}]
  else None.

(** The directory a message is about, for the messages of the completeness
    check and of the summary. *)
Definition msg_dir (m : msg) : option str :=
  match m with
  | MIncomplete dir _ | MSummaryDir dir _ | MSummaryUnreadable dir => Some dir
  | _ => None
  end.

(** The directory an event is about: the one that is listed, or the one the
    message is about. *)
Definition event_dir (e : event) : option str :=
  match e with
  | Sys (SReadDir dir) => Some dir
  | Stdout m => msg_dir m
  | _ => None
  end.

(** The events a run is made of: globs, opens and stats, messages, and
    listings and reports of directories among [tracked]. *)
Inductive main_event (tracked : str -> Prop) : event -> Prop :=
| main_event_glob pattern : main_event tracked (Sys (SGlob pattern))
| main_event_open path : main_event tracked (Sys (SOpen path))
| main_event_stat path : main_event tracked (Sys (SStat path))
| main_event_readDir dir : tracked dir -> main_event tracked (Sys (SReadDir dir))
| main_event_stderr m : main_event tracked (Stderr m)
| main_event_stdout m :
    (forall dir, msg_dir m = Some dir -> tracked dir) ->
    main_event tracked (Stdout m).

(** No key of [linkedDirs] is a base directory. *)
Definition no_base (isBaseDir : str -> bool) (linkedDirs : dirs) : Prop :=
  forall dir, isBaseDir dir = true -> linkedDirs !! dir = None.

(** An event that leaves the filesystem as it is. *)
Definition harmless (e : event) : Prop :=
  match e with
  | Sys c => readonly c = true
  | Stdout _ | Stderr _ => True
  end.

(** What the loop of [main] does with a line it hands to [processLine]:
    the exit code becomes 1 on an error and [linkedDirs] is what the call
    left. *)
Definition parsed (processLine : str -> dirs -> W (option error * dirs))
    (line : str) (st : Z * dirs) : W (Z * dirs) :=
  r <- processLine line (snd st) ;;
  ret (match fst r with Some _ => 1%Z | None => fst st end, snd r).

(** The entries of a directory: its listing, when it can be listed. *)
Definition entriesOf (fs : FS) (dir : str) : list DirEntry :=
  default [] (fs_readDir fs dir).

(** An entry that is a file, neither ignored (by its full path) nor linked
    (by its name). *)
Definition untracked (dir : str) (linkedFiles ignoredFiles : files)
    (entry : DirEntry) : Prop :=
  IsDir entry = false
  /\ has ignoredFiles (Filepath.Join dir (Name entry)) = false
  /\ has linkedFiles (Name entry) = false.

(** The directory is reported as incomplete in the log. *)
Definition reported (dir : str) (l : list event) : Prop :=
  exists missing, Stdout (MIncomplete dir missing) ∈ l.

(** The loop bodies of [checkDirectoryCompleteness] in the two revisions,
    as one function of the directories that are skipped. *)
Definition checkDirectoryWith (skip : str -> bool) (fs : FS) (ignoredFiles : files)
    (d : str * files) (hadError : bool) : W bool :=
  if skip (fst d) then ret hadError
  else
    match fs_readDir fs (fst d) with
    | None => (hadError, [Sys (SReadDir (fst d))])
    | Some entries =>
        match missingFiles (fst d) (snd d) ignoredFiles entries with
        | [] => (hadError, [Sys (SReadDir (fst d))])
        | missing =>
            (true, [Sys (SReadDir (fst d)); Stdout (MIncomplete (fst d) missing)])
        end
    end.

(** A repository under [/srv/.git] with one file that no declaration links. *)
Definition git_listing (path : str) : option (list DirEntry) :=
  if Strings.eqb path (go "/srv/.git")
  then Some [{| Name := go "HEAD"; IsDir := false |}]
  else None.

(** A directory that is looked at and holds an untracked file. *)
Definition incompleteDir (skip : str -> bool) (fs : FS) (ignoredFiles : files)
    (dir : str) (linkedFiles : files) : Prop :=
  skip dir = false
  /\ exists entry, entry ∈ entriesOf fs dir
                   /\ untracked dir linkedFiles ignoredFiles entry.

(** The path whose existence [processLine] checks for a declaration, from
    the groups of the match: the factory default when the target is empty
    or [-], the target itself in the earlier revision and the resolved
    target in the later one. *)
Definition Early_checked (m : list str) : str :=
  let path := nth 1 m [] in
  let target := cleanQuotes (nth 2 m []) in
  if Strings.eqb target [] || Strings.eqb target (go "-")
  then factoryTarget path else target.

Definition Later_checked (m : list str) : str :=
  let path := nth 1 m [] in
  let target := Later.targetOf (nth 2 m []) in
  if Strings.eqb target [] || Strings.eqb target (go "-")
  then factoryTarget path else Later.resolveTargetPath path target.

(** The line is a declaration (it matches the pattern of the revision) and
    the path the revision checks for it does not exist. *)
Definition Early_fails (fs : FS) (line : str) : Prop :=
  exists m, Regexp.FindStringSubmatch Early.lineRegex line = Some m
            /\ fs_stat fs (Early_checked m) = false.

(** The line is a declaration, it is not optional (it does not begin with
    L?), and the path checked for it does not exist. *)
Definition Later_fails (fs : FS) (line : str) : Prop :=
  exists m, Regexp.FindStringSubmatch Later.lineRegex line = Some m
            /\ Strings.HasPrefix line (go "L?") = false
            /\ fs_stat fs (Later_checked m) = false.

Definition confPattern : str := go "/usr/lib/tmpfiles.d/*.conf".

(** A run of white space of the pattern, and a run of anything else. *)
Definition blank (w : str) : Prop := w <> [] /\ forallb Regexp.space w = true.
Definition word (f : str) : Prop :=
  forallb (fun c => negb (Regexp.space c)) f = true.

(** The lines of the later pattern, spelled out: L, any number of ? and +,
    white space, a path, then four runs of white space around three fields
    that may be empty, and a remainder without a newline. *)
Definition Later_grammar (line path rest : str) : Prop :=
  exists q w1 w2 f2 w3 f3 w4 f4 w5,
    line = 76 :: q ++ w1 ++ path ++ w2 ++ f2 ++ w3 ++ f3 ++ w4 ++ f4 ++ w5 ++ rest
    /\ forallb (fun c => existsb (N.eqb c) [63; 43]) q = true
    /\ blank w1 /\ path <> [] /\ word path
    /\ blank w2 /\ word f2 /\ blank w3 /\ word f3 /\ blank w4 /\ word f4
    /\ blank w5 /\ forallb (fun c => negb (c =? 10)) rest = true.




(** [linkedDirs[dir][name]]: reading a missing directory, like reading a
    missing name, gives [false]. *)
Definition linked (linkedDirs : dirs) (dir name : str) : bool :=
  has (default ∅ (linkedDirs !! dir)) name.

Definition ignorePattern : str := go "/usr/share/tmpfiles.d/*.ignore".

(** A line of an ignore file that is a rule: not empty and not a comment
    once trimmed. *)
Definition ignore_rule (text : str) : bool :=
  negb (Strings.eqb (Strings.TrimSpace text) []
        || Strings.HasPrefix (Strings.TrimSpace text) (go "#")).

(** The characters [cleanQuotes] may remove: white space and the two quotes. *)
Definition strippable (c : rune) : bool :=
  Strings.IsSpace c || (c =? dquote) || (c =? squote).

(** The declaration uses the factory default: its target is empty or [-]. *)
Definition Later_default (m : list str) : bool :=
  let target := Later.targetOf (nth 2 m []) in
  Strings.eqb target [] || Strings.eqb target (go "-").

(** Whether the later [processLine] records the checked path of a
    declaration: when it exists, and also when it is a missing factory
    default of an optional declaration; never in a base directory. *)
Definition Later_records (fs : FS) (line : str) (m : list str) : bool :=
  (fs_stat fs (Later_checked m)
   || Later_default m && Strings.eqb (Later.directive line) (go "L?"))
  && negb (Later.isBaseDir (Filepath.Dir (Later_checked m))).

(** The line makes the later revision record [name] in [dir]. *)
Definition Later_tracks (fs : FS) (line dir name : str) : Prop :=
  exists m, Regexp.FindStringSubmatch Later.lineRegex line = Some m
            /\ Later_records fs line m = true
            /\ dir = Filepath.Dir (Later_checked m)
            /\ name = Filepath.Base (Later_checked m).

Arguments go : simpl never.
Arguments factoryTarget : simpl never.
Arguments cleanQuotes : simpl never.
Arguments Filepath.Dir : simpl never.
Arguments Filepath.Base : simpl never.
Arguments Filepath.Clean : simpl never.
Arguments Filepath.Join : simpl never.
Arguments Later.resolveTargetPath : simpl never.
Arguments Later.targetOf : simpl never.
Arguments Regexp.FindStringSubmatch : simpl never.

(** The messages that report an error: a configuration file that cannot be
    opened (on standard error), a target or a factory default that is
    missing, a directory that is incomplete. *)
Definition open_error (e : event) : bool :=
  match e with Stderr (MOpenError _) => true | _ => false end.

Definition missing_error (e : event) : bool :=
  match e with
  | Stdout (MFactoryMissing _) | Stdout (MTargetMissing _) => true
  | _ => false
  end.

Definition incomplete_error (e : event) : bool :=
  match e with Stdout (MIncomplete _ _) => true | _ => false end.

(** Some event of the kind [f] is in the log. *)
Definition printed (f : event -> bool) (l : list event) : Prop :=
  existsb f l = true.

(** The events of [loadIgnoreFiles], of [checkDirectoryCompleteness] and of
    [printSummary]. *)
Definition ignore_event (e : event) : bool :=
  match e with
  | Sys (SGlob _) | Sys (SOpen _) | Stdout (MIgnoreRule _ _) => true
  | _ => false
  end.

Definition check_event (e : event) : bool :=
  match e with
  | Sys (SReadDir _) | Stdout (MIncomplete _ _) => true
  | _ => false
  end.

Definition summary_event (e : event) : bool :=
  match e with
  | Sys (SReadDir _)
  | Stdout MSummaryHeader | Stdout (MSummaryUnreadable _) | Stdout (MSummaryDir _ _)
  | Stdout (MSummaryLinked _) | Stdout (MSummaryIgnored _)
  | Stdout (MSummaryMissing _) | Stdout MSummaryAllLinked => true
  | _ => false
  end.

(** A filesystem where [/opt/y] exists, alone in [/opt], and nothing else. *)
Definition only_opt_y (path : str) : bool := Strings.eqb path (go "/opt/y").

Definition opt_listing (path : str) : option (list DirEntry) :=
  if Strings.eqb path (go "/opt")
  then Some [{| Name := go "y"; IsDir := false |}]
  else None.




(** * Properties *)

(** ** Text and logs *)

Lemma eqb_eq (a b : str) : Strings.eqb a b = true <-> a = b.
Proof. unfold Strings.eqb. apply bool_decide_eq_true. Qed.

Lemma eqb_neq (a b : str) : Strings.eqb a b = false <-> a <> b.
Proof. unfold Strings.eqb. apply bool_decide_eq_false. Qed.

Lemma HasPrefix_app (s p : str) :
  Strings.HasPrefix s p = true <-> exists t, s = p ++ t.
Proof.
  revert s. induction p as [|c p IH]; intros s; simpl.
  - split; [intros _; exists s; reflexivity | by destruct s].
  - destruct s as [|d s]; simpl.
    + split; [discriminate | intros [t Ht]; discriminate].
    + rewrite andb_true_iff, N.eqb_eq, IH. split.
      * intros [-> [t ->]]. exists t. reflexivity.
      * intros [t Ht]. injection Ht as -> ->. split; [reflexivity | exists t; reflexivity].
Qed.

Lemma val_bind {A B} (m : W A) (f : A -> W B) : val (bind m f) = val (f (val m)).
Proof. unfold bind, val. destruct m as [a l1]. simpl. destruct (f a). reflexivity. Qed.

Lemma log_bind {A B} (m : W A) (f : A -> W B) :
  log (bind m f) = log m ++ log (f (val m)).
Proof. unfold bind, val, log. destruct m as [a l1]. simpl. destruct (f a). reflexivity. Qed.

Lemma bind_ret_l {A B} (a : A) (f : A -> W B) : bind (ret a) f = f a.
Proof. unfold bind, ret. destruct (f a). reflexivity. Qed.

Lemma bind_ext {A B} (m : W A) (f g : A -> W B) :
  (forall a, f a = g a) -> bind m f = bind m g.
Proof. intros H. unfold bind. destruct m as [a l1]. by rewrite H. Qed.

Lemma W_eq {A} (m n : W A) : val m = val n -> log m = log n -> m = n.
Proof. destruct m, n. unfold val, log. simpl. congruence. Qed.

(** A loop one of whose rounds does nothing. *)
Lemma forM_inert {A S} (body : A -> S -> W S) (x : A) (l1 l2 : list A) (s : S) :
  (forall s, body x s = ret s) ->
  forM (l1 ++ x :: l2) body s = forM (l1 ++ l2) body s.
Proof.
  intros Hx. revert s. induction l1 as [|y l1 IH]; intros s; simpl.
  - rewrite Hx. apply bind_ret_l.
  - apply bind_ext. intros s'. apply IH.
Qed.

(** ** The matcher *)

Module RegexpFacts.
Import Regexp.

Lemma push_pushes d w cur : pushes w (push d cur) = pushes (d :: w) cur.
Proof. destruct cur as [g|]; simpl; [|reflexivity]. by rewrite <- app_assoc. Qed.

Lemma pushes_nil cur : pushes [] cur = cur.
Proof. by destruct cur. Qed.

Section StarFacts.
Context {R : Type} (cl : class) (k : str -> option str -> option R).

Lemma star_sound s cur r :
  star cl k s cur = Some r ->
  exists w s', s = w ++ s' /\ forallb (in_class cl) w = true
               /\ k s' (pushes w cur) = Some r.
Proof.
  revert cur. induction s as [|d s IH]; intros cur; simpl.
  - intros H. exists [], []. by rewrite pushes_nil.
  - destruct (in_class cl d) eqn:Hd.
    + destruct (star cl k s (push d cur)) as [r0|] eqn:Hs.
      * intros [= <-]. destruct (IH _ Hs) as (w & s' & -> & Hw & Hk).
        exists (d :: w), s'. simpl. rewrite Hd, Hw, <- push_pushes. done.
      * intros H. exists [], (d :: s). by rewrite pushes_nil.
    + intros H. exists [], (d :: s). by rewrite pushes_nil.
Qed.

Lemma star_stop s cur : k s cur <> None -> star cl k s cur <> None.
Proof.
  intros Hk. destruct s as [|d s]; simpl; [done|].
  destruct (in_class cl d); [|done].
  by destruct (star cl k s (push d cur)).
Qed.

Lemma star_complete w s cur :
  forallb (in_class cl) w = true ->
  k s (pushes w cur) <> None ->
  star cl k (w ++ s) cur <> None.
Proof.
  revert cur. induction w as [|d w IH]; intros cur; simpl.
  - rewrite pushes_nil. intros _. apply star_stop.
  - rewrite andb_true_iff. intros [-> Hw] Hk.
    rewrite <- push_pushes in Hk. specialize (IH _ Hw Hk).
    by destruct (star cl k (w ++ s) (push d cur)).
Qed.
End StarFacts.

(** Whatever the matcher returns is a parse. *)
Lemma run_sound p : forall s cur caps r,
  run p s cur caps = Some r -> parses p s cur caps r.
Proof.
  induction p as [|i p IH]; intros s cur caps r; simpl.
  - destruct s; [|done]. intros [= <-]. constructor.
  - destruct i as [c|cl|cl| |].
    + destruct s as [|d s]; [done|]. destruct (N.eqb_spec c d) as [->|]; [|done].
      intros H. constructor. by apply IH.
    + intros H. apply star_sound in H as (w & s' & -> & Hw & Hk).
      apply parses_star; [done|]. by apply IH.
    + destruct s as [|d s]; [done|]. destruct (in_class cl d) eqn:Hd; [|done].
      intros H. apply star_sound in H as (w & s' & -> & Hw & Hk).
      rewrite push_pushes in Hk.
      apply (parses_plus cl p (d :: w) s'); [done| |by apply IH].
      simpl. by rewrite Hd, Hw.
    + intros H. constructor. by apply IH.
    + intros H. constructor. by apply IH.
Qed.

(** The matcher finds a parse whenever there is one. *)
Lemma run_complete p s cur caps r :
  parses p s cur caps r -> run p s cur caps <> None.
Proof.
  induction 1 as [cur caps|c p s cur caps r _ IH|cl p w s cur caps r Hw _ IH
                 |cl p w s cur caps r Hne Hw _ IH|p s cur caps r _ IH
                 |p s cur caps r _ IH]; simpl; try done.
  - by rewrite N.eqb_refl.
  - by apply star_complete.
  - destruct w as [|d w]; [done|]. simpl in *.
    apply andb_true_iff in Hw as [-> Hw].
    apply star_complete; [done|]. by rewrite push_pushes.
Qed.

(** [FindStringSubmatch] succeeds exactly on the texts that match. *)
Lemma FindStringSubmatch_matches p s :
  FindStringSubmatch p s <> None <-> matches p s.
Proof.
  unfold FindStringSubmatch, matches. split.
  - destruct (run p s None []) as [r|] eqn:H; [|done].
    intros _. exists r. by apply run_sound.
  - intros [r Hr]. apply run_complete in Hr.
    by destruct (run p s None []).
Qed.


End RegexpFacts.

(** ** Lines that are not declarations *)

Lemma HasPrefix_L (line : str) :
  Strings.HasPrefix line (go "L") = true <-> exists t, line = 76 :: t.
Proof. apply (HasPrefix_app line [76]). Qed.

Lemma Early_match_L (line : str) :
  Regexp.FindStringSubmatch Early.lineRegex line <> None ->
  Strings.HasPrefix line (go "L") = true.
Proof.
  intros H. apply RegexpFacts.FindStringSubmatch_matches in H as [g H].
  inversion H; subst. apply HasPrefix_L. eauto.
Qed.

Lemma Later_match_L (line : str) :
  Regexp.FindStringSubmatch Later.lineRegex line <> None ->
  Strings.HasPrefix line (go "L") = true.
Proof.
  intros H. apply RegexpFacts.FindStringSubmatch_matches in H as [g H].
  inversion H; subst. apply HasPrefix_L. eauto.
Qed.

Lemma Early_processLine_unmatched fs line linkedDirs :
  Regexp.FindStringSubmatch Early.lineRegex line = None ->
  Early.processLine fs line linkedDirs = ret (None, linkedDirs).
Proof. intros H. unfold Early.processLine. by rewrite H. Qed.

Lemma Later_processLine_unmatched fs line linkedDirs :
  Regexp.FindStringSubmatch Later.lineRegex line = None ->
  Later.processLine fs line linkedDirs = ret (None, linkedDirs).
Proof.
  intros H. unfold Later.processLine. rewrite H.
  by destruct (negb (Strings.HasPrefix line (go "L"))).
Qed.

Lemma Early_scanLine_unmatched fs line st :
  Regexp.FindStringSubmatch Early.lineRegex line = None ->
  Early.scanLine fs line st = ret st.
Proof.
  intros H. destruct st as [exitCode linkedDirs]. unfold Early.scanLine.
  rewrite (Early_processLine_unmatched _ _ _ H), bind_ret_l.
  by destruct (_ || _).
Qed.

Lemma Later_scanLine_unmatched fs text st :
  Regexp.FindStringSubmatch Later.lineRegex (Strings.TrimSpace text) = None ->
  Later.scanLine fs text st = ret st.
Proof.
  intros H. destruct st as [exitCode linkedDirs]. unfold Later.scanLine.
  rewrite (Later_processLine_unmatched _ _ _ H), bind_ret_l.
  destruct (_ || _); [done|]. by destruct (Strings.HasPrefix _ _).
Qed.

(** C10: a line that begins with L and that the pattern of the revision does
    not match is skipped in silence: [processLine] returns nil, logs nothing
    and leaves [linkedDirs] as it was, and wherever the line stands among
    the lines of a file the scan ends in the same exit code, the same
    [linkedDirs] and the same log as without it.  Both revisions. *)
Theorem C10_unmatched_line_skipped (fs : FS) (line : str) (linkedDirs : dirs) :
  Strings.HasPrefix line (go "L") = true ->
  (Regexp.FindStringSubmatch Early.lineRegex line = None ->
   Early.processLine fs line linkedDirs = ret (None, linkedDirs)
   /\ forall before after st,
       forM (before ++ line :: after) (Early.scanLine fs) st
       = forM (before ++ after) (Early.scanLine fs) st)
  /\ (Regexp.FindStringSubmatch Later.lineRegex line = None ->
      Later.processLine fs line linkedDirs = ret (None, linkedDirs)
      /\ forall text before after st,
          Strings.TrimSpace text = line ->
          forM (before ++ text :: after) (Later.scanLine fs) st
          = forM (before ++ after) (Later.scanLine fs) st).
Proof.
  intros _. split; intros H.
  - split; [by apply Early_processLine_unmatched|].
    intros before after st. apply forM_inert.
    intros s. by apply Early_scanLine_unmatched.
  - split; [by apply Later_processLine_unmatched|].
    intros text before after st Ht. apply forM_inert.
    intros s. apply Later_scanLine_unmatched. by rewrite Ht.
Qed.

Lemma C10_witness :
  Early.processLine fs_nothing (go "Lfoo") ∅ = ret (None, ∅)
  /\ Later.processLine fs_nothing (go "Lfoo") ∅ = ret (None, ∅).
Proof.
  destruct (C10_unmatched_line_skipped fs_nothing (go "Lfoo") ∅ eq_refl) as [HE HL].
  split; [apply HE | apply HL]; reflexivity.
Defined.

(** ** The factory default *)

(** Where the last element of the path is neither [etc] nor [var], the
    prefix alone decides. *)
Lemma factoryTarget_by_prefix (path : str) :
  Filepath.Base path <> go "etc" -> Filepath.Base path <> go "var" ->
  factoryTarget path =
    if Strings.HasPrefix path (go "/etc/")
    then go "/usr/share/factory/etc/" ++ drop 5 path
    else if Strings.HasPrefix path (go "/var/")
    then go "/usr/share/factory/var/" ++ drop 5 path
    else go "/usr/share/factory" ++ path.
Proof.
  intros He Hv. unfold factoryTarget, Strings.TrimPrefix.
  apply eqb_neq in He, Hv. rewrite He, Hv. simpl.
  destruct (Strings.HasPrefix path (go "/etc/")); [done|].
  by destruct (Strings.HasPrefix path (go "/var/")).
Qed.

(** C3, at the path [/var/etc]: it has the prefix [/var/] and not the prefix
    [/etc/], and [factoryTarget] sends it under the factory copy of [/etc],
    with the whole path appended, because its last element is [etc]; the
    prefix rule gives [/usr/share/factory/var/etc]. *)
Theorem C3_factoryTarget_var_etc :
  Strings.HasPrefix (go "/var/etc") (go "/var/") = true
  /\ Strings.HasPrefix (go "/var/etc") (go "/etc/") = false
  /\ factoryTarget (go "/var/etc") = go "/usr/share/factory/etc//var/etc"
  /\ go "/usr/share/factory/var/" ++ Strings.TrimPrefix (go "/var/etc") (go "/var/")
     = go "/usr/share/factory/var/etc".
Proof. repeat split; vm_compute; reflexivity. Qed.

(** ** Optional declarations *)

(** A line whose directive is L? never makes [processLine] return an error. *)
Lemma Later_processLine_optional fs line linkedDirs :
  Later.directive line = go "L?" ->
  fst (val (Later.processLine fs line linkedDirs)) = None.
Proof.
  intros Hd. unfold Later.processLine. rewrite Hd.
  destruct (negb _); [done|].
  destruct (Regexp.FindStringSubmatch _ _) as [m|]; [|done].
  replace (Strings.eqb (go "L?") (go "L?")) with true by done.
  destruct (_ || _); unfold Stat, Printf, Later.finish;
    repeat (destruct (fs_stat fs _) || destruct (Strings.eqb _ _)); reflexivity.
Qed.

(** C8, at the line [L? /etc/foo - - - - -] when nothing exists but the file
    [/usr/share/factory/etc/bar]: [processLine] returns nil, yet it records
    the missing factory target as a linked file of [/usr/share/factory/etc];
    the completeness check then fails on [bar] and the exit code is 1, where
    the same run without the line exits with 0. *)
Theorem C8_optional_missing_factory_target :
  let line := go "L? /etc/foo - - - - -" in
  val (Later.processLine (fs_one_conf [line] (fun _ => false) factory_etc_bar) line ∅)
  = (None, {[ go "/usr/share/factory/etc" := {[ go "foo" := true ]} ]})
  /\ val (Later.main (fs_one_conf [line] (fun _ => false) factory_etc_bar)) = 1%Z
  /\ val (Later.main (fs_one_conf [] (fun _ => false) factory_etc_bar)) = 0%Z.
Proof. repeat split; vm_compute; reflexivity. Qed.

(** ** The target that is checked *)

Lemma resolveTargetPath_abs path target :
  Filepath.IsAbs target = true -> Later.resolveTargetPath path target = target.
Proof. intros H. unfold Later.resolveTargetPath. by rewrite H. Qed.

Lemma resolveTargetPath_rel path target :
  Filepath.IsAbs target = false ->
  Later.resolveTargetPath path target
  = Filepath.Clean (Filepath.Join (Filepath.Dir path) target).
Proof. intros H. unfold Later.resolveTargetPath. by rewrite H. Qed.

(** C6: for a declaration of the later revision whose target is explicit
    (neither empty nor [-]), the one call [processLine] makes to the
    filesystem is [os.Stat] on the resolved target; the resolved target is
    the target itself when it is absolute, and otherwise the cleaned join of
    the directory of the symlink path with the target. *)
Theorem C6_explicit_target_resolved (fs : FS) (line : str) (linkedDirs : dirs)
    (m : list str) :
  Regexp.FindStringSubmatch Later.lineRegex line = Some m ->
  Later.targetOf (nth 2 m []) <> [] ->
  Later.targetOf (nth 2 m []) <> go "-" ->
  let path := nth 1 m [] in
  let target := Later.targetOf (nth 2 m []) in
  syscalls (log (Later.processLine fs line linkedDirs))
  = [SStat (Later.resolveTargetPath path target)]
  /\ (Filepath.IsAbs target = true -> Later.resolveTargetPath path target = target)
  /\ (Filepath.IsAbs target = false ->
      Later.resolveTargetPath path target
      = Filepath.Clean (Filepath.Join (Filepath.Dir path) target)).
Proof.
  intros Hm He Hd path target.
  split; [|split; [apply resolveTargetPath_abs | apply resolveTargetPath_rel]].
  unfold Later.processLine.
  rewrite (Later_match_L line) by (by rewrite Hm). rewrite Hm. simpl negb. cbv iota.
  apply eqb_neq in He, Hd. rewrite He, Hd. simpl orb. cbv iota.
  fold path target.
  unfold Stat, Printf, Later.finish.
  destruct (Strings.eqb (Later.resolveTargetPath path target) target);
    destruct (fs_stat fs _);
    destruct (Strings.eqb (Later.directive line) (go "L?"));
    destruct (Strings.eqb (Later.directive line) (go "L+")); reflexivity.
Qed.

Lemma C6_witness :
  syscalls (log (Later.processLine fs_nothing (go "L /etc/foo - - - - ../bar") ∅))
  = [SStat (go "/bar")].
Proof.
  exact (proj1 (C6_explicit_target_resolved fs_nothing (go "L /etc/foo - - - - ../bar") ∅
                  [go "L /etc/foo - - - - ../bar"; go "/etc/foo"; go "- ../bar"]
                  eq_refl ltac:(vm_compute; discriminate) ltac:(vm_compute; discriminate))).
Defined.

(** ** What a run logs *)

Lemma forM_log {A S} (Q : event -> Prop) (body : A -> S -> W S) (xs : list A) (s : S) :
  (forall x s, x ∈ xs -> Forall Q (log (body x s))) ->
  Forall Q (log (forM xs body s)).
Proof.
  revert s. induction xs as [|x xs IH]; intros s H; simpl.
  - constructor.
  - rewrite log_bind. apply Forall_app. split.
    + apply H. left.
    + apply IH. intros y s' Hy. apply H. by right.
Qed.

Lemma forM_inv {A S} (P : S -> Prop) (body : A -> S -> W S) (xs : list A) (s : S) :
  P s -> (forall x s, x ∈ xs -> P s -> P (val (body x s))) ->
  P (val (forM xs body s)).
Proof.
  revert s. induction xs as [|x xs IH]; intros s Hs H; simpl.
  - done.
  - rewrite val_bind. apply IH.
    + apply H; [left | done].
    + intros y s' Hy. apply H. by right.
Qed.

Lemma main_event_mono (T U : str -> Prop) e :
  (forall d, T d -> U d) -> main_event T e -> main_event U e.
Proof. intros H []; constructor; eauto. Qed.

Ltac crunch_log :=
  cbv [log val bind ret Printf Fprintf_stderr Stat Open Glob ReadDir snd fst app
       Later.finish];
  repeat match goal with
         | |- context [if ?b then _ else _] => destruct b eqn:?
         | |- context [match ?x with Some _ => _ | None => _ end] => destruct x eqn:?
         | |- context [match ?x with [] => _ | _ :: _ => _ end] => destruct x eqn:?
         end;
  cbv [log val bind ret Printf Fprintf_stderr Stat Open Glob ReadDir snd fst app
       Later.finish].

Lemma Early_processLine_events T fs line linkedDirs :
  Forall (main_event T) (log (Early.processLine fs line linkedDirs)).
Proof.
  unfold Early.processLine. crunch_log;
    repeat (constructor; try (intros ? [=])).
Qed.

Lemma Later_processLine_events T fs line linkedDirs :
  Forall (main_event T) (log (Later.processLine fs line linkedDirs)).
Proof.
  unfold Later.processLine. crunch_log;
    repeat (constructor; try (intros ? [=])).
Qed.

Lemma Early_scanLine_events T fs line st :
  Forall (main_event T) (log (Early.scanLine fs line st)).
Proof.
  destruct st as [exitCode linkedDirs]. unfold Early.scanLine.
  destruct (_ || _); [constructor|].
  rewrite log_bind. apply Forall_app. split; [apply Early_processLine_events|].
  destruct (val _) as [[e|] ld]; constructor.
Qed.

Lemma Later_scanLine_events T fs text st :
  Forall (main_event T) (log (Later.scanLine fs text st)).
Proof.
  destruct st as [exitCode linkedDirs]. unfold Later.scanLine.
  destruct (_ || _); [constructor|].
  destruct (Strings.HasPrefix _ _); [|constructor].
  rewrite log_bind. apply Forall_app. split; [apply Later_processLine_events|].
  destruct (val _) as [[e|] ld]; constructor.
Qed.

Lemma Early_scanConfigs_events T fs :
  Forall (main_event T) (log (Early.scanConfigs fs)).
Proof.
  unfold Early.scanConfigs. rewrite log_bind. apply Forall_app. split.
  - repeat constructor.
  - apply forM_log. intros file st _. unfold Early.scanFile.
    rewrite log_bind. apply Forall_app. split; [repeat constructor|].
    destruct (val _) as [lines|]; [|repeat constructor].
    apply forM_log. intros. apply Early_scanLine_events.
Qed.

Lemma Later_scanConfigs_events T fs :
  Forall (main_event T) (log (Later.scanConfigs fs)).
Proof.
  unfold Later.scanConfigs. rewrite log_bind. apply Forall_app. split.
  - repeat constructor.
  - apply forM_log. intros file st _. unfold Later.scanFile.
    rewrite log_bind. apply Forall_app. split; [repeat constructor|].
    destruct (val _) as [lines|]; [|repeat constructor].
    apply forM_log. intros. apply Later_scanLine_events.
Qed.

Lemma loadIgnoreFiles_events T fs :
  Forall (main_event T) (log (loadIgnoreFiles fs)).
Proof.
  unfold loadIgnoreFiles. rewrite log_bind. apply Forall_app. split.
  - repeat constructor.
  - apply forM_log. intros file ign _.
    rewrite log_bind. apply Forall_app. split; [repeat constructor|].
    destruct (val _) as [lines|]; [|constructor].
    apply forM_log. intros text ign' _.
    destruct (_ || _); repeat (constructor; try (intros ? [=])).
Qed.

Lemma summarize_events (T : str -> Prop) dir linkedFiles ignoredFiles entries :
  T dir ->
  Forall (main_event T) (log (summarize dir linkedFiles ignoredFiles entries)).
Proof.
  intros HT. unfold summarize.
  destruct (classify _ _ _ _) as [[missing ignored] actualLinked].
  destruct missing, ignored, actualLinked;
    repeat (constructor; try (intros ? [=]; by subst)).
Qed.

Lemma Early_check_events fs linkedDirs ignoredFiles :
  Forall (main_event (fun d => is_Some (linkedDirs !! d)))
         (log (Early.checkDirectoryCompleteness fs linkedDirs ignoredFiles)).
Proof.
  unfold Early.checkDirectoryCompleteness. rewrite log_bind. apply Forall_app. split.
  - apply forM_log. intros [dir linkedFiles] b Hin.
    apply elem_of_map_to_list in Hin.
    assert (is_Some (linkedDirs !! dir)) by eauto.
    unfold Early.checkDirectory. crunch_log;
      repeat (constructor; try done; try (intros ? [=]; by subst)).
  - destruct (val _); constructor.
Qed.

Lemma Later_check_events fs linkedDirs ignoredFiles :
  Forall (main_event (fun d => is_Some (linkedDirs !! d)))
         (log (Later.checkDirectoryCompleteness fs linkedDirs ignoredFiles)).
Proof.
  unfold Later.checkDirectoryCompleteness. rewrite log_bind. apply Forall_app. split.
  - apply forM_log. intros [dir linkedFiles] b Hin.
    apply elem_of_map_to_list in Hin.
    assert (is_Some (linkedDirs !! dir)) by eauto.
    unfold Later.checkDirectory. crunch_log;
      repeat (constructor; try done; try (intros ? [=]; by subst)).
  - destruct (val _); constructor.
Qed.

Lemma Early_printSummary_events fs linkedDirs ignoredFiles :
  Forall (main_event (fun d => is_Some (linkedDirs !! d)))
         (log (Early.printSummary fs linkedDirs ignoredFiles)).
Proof.
  unfold Early.printSummary. rewrite log_bind. apply Forall_app. split.
  - repeat (constructor; try (intros ? [=])).
  - apply forM_log. intros [dir linkedFiles] b Hin.
    apply elem_of_map_to_list in Hin.
    assert (is_Some (linkedDirs !! dir)) by eauto.
    rewrite log_bind. apply Forall_app. split; [by repeat constructor|].
    destruct (val _) as [entries|].
    + by apply summarize_events.
    + repeat (constructor; try (intros ? [=]; by subst)).
Qed.

Lemma Later_printSummary_events fs linkedDirs ignoredFiles :
  Forall (main_event (fun d => is_Some (linkedDirs !! d)))
         (log (Later.printSummary fs linkedDirs ignoredFiles)).
Proof.
  unfold Later.printSummary. rewrite log_bind. apply Forall_app. split.
  - repeat (constructor; try (intros ? [=])).
  - apply forM_log. intros [dir linkedFiles] b Hin.
    apply elem_of_map_to_list in Hin.
    assert (is_Some (linkedDirs !! dir)) by eauto.
    destruct (Later.skipped dir); [constructor|].
    rewrite log_bind. apply Forall_app. split; [by repeat constructor|].
    destruct (val _) as [entries|].
    + by apply summarize_events.
    + repeat (constructor; try (intros ? [=]; by subst)).
Qed.

(** The events of a whole run, with the directories tracked at the end of
    the scan. *)
Lemma Early_main_events fs :
  Forall (main_event (fun d => is_Some (snd (val (Early.scanConfigs fs)) !! d)))
         (log (Early.main fs)).
Proof.
  unfold Early.main. rewrite log_bind. apply Forall_app. split.
  - apply Early_scanConfigs_events.
  - destruct (val (Early.scanConfigs fs)) as [exitCode linkedDirs]. simpl snd.
    rewrite log_bind. apply Forall_app. split; [apply loadIgnoreFiles_events|].
    rewrite log_bind. apply Forall_app. split; [apply Early_check_events|].
    rewrite log_bind. apply Forall_app. split; [apply Early_printSummary_events|].
    constructor.
Qed.

Lemma Later_main_events fs :
  Forall (main_event (fun d => is_Some (snd (val (Later.scanConfigs fs)) !! d)))
         (log (Later.main fs)).
Proof.
  unfold Later.main. rewrite log_bind. apply Forall_app. split.
  - apply Later_scanConfigs_events.
  - destruct (val (Later.scanConfigs fs)) as [exitCode linkedDirs]. simpl snd.
    rewrite log_bind. apply Forall_app. split; [apply loadIgnoreFiles_events|].
    rewrite log_bind. apply Forall_app. split; [apply Later_check_events|].
    rewrite log_bind. apply Forall_app. split; [apply Later_printSummary_events|].
    constructor.
Qed.

(** ** Read-only runs *)

Lemma main_event_harmless T e : main_event T e -> harmless e.
Proof. by intros []. Qed.

Lemma Later_processLine_recreate fs line linkedDirs m :
  Later.directive line = go "L+" ->
  Regexp.FindStringSubmatch Later.lineRegex line = Some m ->
  fst (val (Later.processLine fs line linkedDirs)) = None ->
  last (log (Later.processLine fs line linkedDirs)) = Some (Stdout MRecreateNote).
Proof.
  intros Hd Hm. unfold Later.processLine.
  rewrite (Later_match_L line) by (by rewrite Hm). rewrite Hm, Hd. simpl negb. cbv iota.
  replace (Strings.eqb (go "L+") (go "L?")) with false by done.
  replace (Strings.eqb (go "L+") (go "L+")) with true by done.
  crunch_log; done.
Qed.

Lemma Early_scanLine_recreate fs line st :
  Strings.HasPrefix line (go "L+") = true -> Early.scanLine fs line st = ret st.
Proof.
  intros H. destruct st as [exitCode linkedDirs]. unfold Early.scanLine.
  rewrite H, orb_true_r. done.
Qed.

(** C5: every call to the filesystem logged by a run of either revision is
    a read (glob, open, stat or read-dir), none creates or removes
    anything.  A line with the directive L+ is no exception: the earlier
    revision skips it, and in the later revision [processLine] logs reads
    and messages only, the last of which, when the line is a declaration and
    no error is returned, is the note about recreation. *)
Theorem C5_read_only (fs : FS) :
  Forall harmless (log (Early.main fs))
  /\ Forall harmless (log (Later.main fs))
  /\ (forall line st,
       Strings.HasPrefix line (go "L+") = true ->
       Early.scanLine fs line st = ret st)
  /\ (forall line linkedDirs,
       Later.directive line = go "L+" ->
       Forall harmless (log (Later.processLine fs line linkedDirs))
       /\ forall m,
           Regexp.FindStringSubmatch Later.lineRegex line = Some m ->
           fst (val (Later.processLine fs line linkedDirs)) = None ->
           last (log (Later.processLine fs line linkedDirs))
           = Some (Stdout MRecreateNote)).
Proof.
  split; [|split; [|split]].
  - eapply Forall_impl; [apply Early_main_events|]. intros e. apply main_event_harmless.
  - eapply Forall_impl; [apply Later_main_events|]. intros e. apply main_event_harmless.
  - intros line st. apply Early_scanLine_recreate.
  - intros line linkedDirs Hd. split.
    + eapply Forall_impl; [apply (Later_processLine_events (fun _ => True))|].
      intros e. apply main_event_harmless.
    + intros m. by apply Later_processLine_recreate.
Qed.

Lemma C5_witness :
  Early.scanLine (fs_one_conf [] (fun _ => true) (fun _ => None))
                 (go "L+ /etc/foo - - - - /opt/bar") (0%Z, ∅) = ret (0%Z, ∅)
  /\ last (log (Later.processLine (fs_one_conf [] (fun _ => true) (fun _ => None))
                                  (go "L+ /etc/foo - - - - /opt/bar") ∅))
     = Some (Stdout MRecreateNote).
Proof.
  destruct (C5_read_only (fs_one_conf [] (fun _ => true) (fun _ => None)))
    as (_ & _ & HE & HL).
  split.
  - apply HE. reflexivity.
  - destruct (HL (go "L+ /etc/foo - - - - /opt/bar") ∅ eq_refl) as [_ Hnote].
    apply (Hnote [go "L+ /etc/foo - - - - /opt/bar"; go "/etc/foo"; go "- /opt/bar"]);
      reflexivity.
Defined.

(** ** Base directories *)

Lemma record_other (dir base : str) (linkedDirs : dirs) (d : str) :
  dir <> d -> record dir base linkedDirs !! d = linkedDirs !! d.
Proof. intros H. unfold record. by rewrite lookup_insert_ne. Qed.

Lemma record_same (dir base : str) (linkedDirs : dirs) :
  record dir base linkedDirs !! dir
  = Some (<[base := true]> (default ∅ (linkedDirs !! dir))).
Proof. unfold record. by rewrite lookup_insert_eq. Qed.

Ltac base_untouched :=
  match goal with
  | |- ?x = ?x => reflexivity
  | H : negb (_ ?dir) = true |- record ?dir _ _ !! _ = _ =>
      let E := fresh in
      apply record_other; intros E; rewrite E in H;
      apply negb_true_iff in H; congruence
  end.

Lemma Early_processLine_base fs line linkedDirs d :
  Early.isBaseDir d = true ->
  snd (val (Early.processLine fs line linkedDirs)) !! d = linkedDirs !! d.
Proof.
  intros Hb. unfold Early.processLine. crunch_log; base_untouched.
Qed.

Lemma Later_processLine_base fs line linkedDirs d :
  Later.isBaseDir d = true ->
  snd (val (Later.processLine fs line linkedDirs)) !! d = linkedDirs !! d.
Proof.
  intros Hb. unfold Later.processLine, Later.track. crunch_log; base_untouched.
Qed.

Lemma Early_scanLine_base fs line st d :
  Early.isBaseDir d = true ->
  snd (val (Early.scanLine fs line st)) !! d = snd st !! d.
Proof.
  intros Hb. destruct st as [exitCode linkedDirs]. unfold Early.scanLine.
  destruct (_ || _); [done|]. rewrite val_bind.
  pose proof (Early_processLine_base fs line linkedDirs d Hb) as H.
  by destruct (val (Early.processLine fs line linkedDirs)) as [[e|] ld].
Qed.

Lemma Later_scanLine_base fs text st d :
  Later.isBaseDir d = true ->
  snd (val (Later.scanLine fs text st)) !! d = snd st !! d.
Proof.
  intros Hb. destruct st as [exitCode linkedDirs]. unfold Later.scanLine.
  destruct (_ || _); [done|]. destruct (Strings.HasPrefix _ _); [|done].
  rewrite val_bind.
  pose proof (Later_processLine_base fs (Strings.TrimSpace text) linkedDirs d Hb) as H.
  by destruct (val (Later.processLine fs _ linkedDirs)) as [[e|] ld].
Qed.

Lemma Early_scanConfigs_no_base fs :
  no_base Early.isBaseDir (snd (val (Early.scanConfigs fs))).
Proof.
  intros d Hb. unfold Early.scanConfigs. rewrite val_bind.
  apply (forM_inv (fun st => snd st !! d = None)); [done|].
  intros file st _ Hst. unfold Early.scanFile. rewrite val_bind.
  destruct (val (Open fs file)) as [lines|]; [|done].
  apply (forM_inv (fun st => snd st !! d = None)); [done|].
  intros line st' _ Hst'. by rewrite Early_scanLine_base.
Qed.

Lemma Later_scanConfigs_no_base fs :
  no_base Later.isBaseDir (snd (val (Later.scanConfigs fs))).
Proof.
  intros d Hb. unfold Later.scanConfigs. rewrite val_bind.
  apply (forM_inv (fun st => snd st !! d = None)); [done|].
  intros file st _ Hst. unfold Later.scanFile. rewrite val_bind.
  destruct (val (Open fs file)) as [lines|]; [|done].
  apply (forM_inv (fun st => snd st !! d = None)); [done|].
  intros line st' _ Hst'. by rewrite Later_scanLine_base.
Qed.

Lemma main_event_dir T e dir : main_event T e -> event_dir e = Some dir -> T dir.
Proof. intros [] [=]; subst; auto. Qed.

(** C9: [processLine] leaves the entry of every base directory of
    [linkedDirs] as it found it, so it never adds one; in a run, every
    directory that is listed by the completeness check or by the summary, or
    named in a report of either, is not a base directory.  The base
    directories are /etc, /var, /usr, /bin, /sbin, /lib and /lib64 in the
    earlier revision, and /proc and /run as well in the later one. *)
Theorem C9_base_dirs_never_tracked (fs : FS) :
  (forall line linkedDirs dir,
     Early.isBaseDir dir = true ->
     snd (val (Early.processLine fs line linkedDirs)) !! dir = linkedDirs !! dir)
  /\ (forall line linkedDirs dir,
       Later.isBaseDir dir = true ->
       snd (val (Later.processLine fs line linkedDirs)) !! dir = linkedDirs !! dir)
  /\ (forall e dir,
       e ∈ log (Early.main fs) -> event_dir e = Some dir ->
       Early.isBaseDir dir = false)
  /\ (forall e dir,
       e ∈ log (Later.main fs) -> event_dir e = Some dir ->
       Later.isBaseDir dir = false).
Proof.
  split; [|split; [|split]].
  - intros. by apply Early_processLine_base.
  - intros. by apply Later_processLine_base.
  - intros e dir He Hd.
    pose proof (proj1 (Forall_forall _ _) (Early_main_events fs) e He) as Hev.
    apply (main_event_dir _ _ _ Hev) in Hd as [x Hx].
    destruct (Early.isBaseDir dir) eqn:Hb; [|done].
    apply (Early_scanConfigs_no_base fs) in Hb. congruence.
  - intros e dir He Hd.
    pose proof (proj1 (Forall_forall _ _) (Later_main_events fs) e He) as Hev.
    apply (main_event_dir _ _ _ Hev) in Hd as [x Hx].
    destruct (Later.isBaseDir dir) eqn:Hb; [|done].
    apply (Later_scanConfigs_no_base fs) in Hb. congruence.
Qed.

Lemma C9_witness :
  snd (val (Later.processLine (fs_one_conf [] (fun _ => true) (fun _ => None))
                              (go "L /x - - - - /etc/passwd") ∅)) !! go "/etc"
  = (∅ : dirs) !! go "/etc".
Proof.
  exact (proj1 (proj2 (C9_base_dirs_never_tracked
                         (fs_one_conf [] (fun _ => true) (fun _ => None))))
               (go "L /x - - - - /etc/passwd") ∅ (go "/etc") eq_refl).
Defined.

(** ** Which lines are parsed *)

Lemma Early_scanLine_parsed fs line st :
  Strings.HasPrefix line (go "L") = true ->
  Strings.HasPrefix line (go "L?") = false ->
  Strings.HasPrefix line (go "L+") = false ->
  Early.scanLine fs line st = parsed (Early.processLine fs) line st.
Proof.
  intros H1 H2 H3. destruct st as [exitCode linkedDirs].
  unfold Early.scanLine, parsed. rewrite H1, H2, H3. simpl.
  apply bind_ext. by intros [[e|] ld].
Qed.

Lemma Early_scanLine_ignored fs line st :
  Strings.HasPrefix line (go "L") = false
  \/ Strings.HasPrefix line (go "L?") = true
  \/ Strings.HasPrefix line (go "L+") = true ->
  Early.scanLine fs line st = ret st.
Proof.
  intros H. destruct st as [exitCode linkedDirs]. unfold Early.scanLine.
  destruct H as [->|[->| ->]]; simpl; by rewrite ?orb_true_r.
Qed.

Lemma Later_scanLine_parsed fs text st :
  Strings.HasPrefix (Strings.TrimSpace text) (go "L") = true ->
  Later.scanLine fs text st
  = parsed (Later.processLine fs) (Strings.TrimSpace text) st.
Proof.
  intros H. destruct st as [exitCode linkedDirs].
  unfold Later.scanLine, parsed. rewrite H.
  apply HasPrefix_L in H as [t ->].
  replace (Strings.eqb (76 :: t) [] || Strings.HasPrefix (76 :: t) (go "#"))
    with false by (by destruct t).
  apply bind_ext. by intros [[e|] ld].
Qed.

Lemma Later_scanLine_ignored fs text st :
  Strings.HasPrefix (Strings.TrimSpace text) (go "L") = false ->
  Later.scanLine fs text st = ret st.
Proof.
  intros H. destruct st as [exitCode linkedDirs]. unfold Later.scanLine.
  rewrite H. by destruct (_ || _).
Qed.

(** C4, as stated, fails in the later revision at the line
    [  L /x - - - - /missing], which begins with two spaces and not with L:
    the scan trims it, parses it and sets the exit code to 1, for the line
    alone and for the run of a configuration made of that line. *)
Lemma C4_counterexample :
  Strings.HasPrefix (go "  L /x - - - - /missing") (go "L") = false
  /\ val (Later.scanLine fs_nothing (go "  L /x - - - - /missing") (0%Z, ∅))
     = (1%Z, ∅)
  /\ val (Later.main (fs_one_conf [go "  L /x - - - - /missing"]
                                  (fun _ => false) (fun _ => None))) = 1%Z
  /\ val (Later.main (fs_one_conf [] (fun _ => false) (fun _ => None))) = 0%Z.
Proof. repeat split; vm_compute; reflexivity. Qed.

(** C4, amended.  In the later revision a line is looked at once trimmed of
    the white space around it: when the trimmed line does not begin with L
    the line has no effect (same exit code, same [linkedDirs], nothing
    logged, wherever it stands among the lines of a file), and when it does
    the trimmed line is handed to [processLine].  In the earlier revision a
    line that does not begin with L, or that begins with L? or L+, has no
    effect, and every other line is handed to [processLine]. *)
Theorem C4_lines_parsed (fs : FS) (text : str) (st : Z * dirs) :
  (Strings.HasPrefix (Strings.TrimSpace text) (go "L") = false ->
   Later.scanLine fs text st = ret st
   /\ forall before after,
       forM (before ++ text :: after) (Later.scanLine fs) st
       = forM (before ++ after) (Later.scanLine fs) st)
  /\ (Strings.HasPrefix (Strings.TrimSpace text) (go "L") = true ->
      Later.scanLine fs text st
      = parsed (Later.processLine fs) (Strings.TrimSpace text) st)
  /\ (Strings.HasPrefix text (go "L") = false
      \/ Strings.HasPrefix text (go "L?") = true
      \/ Strings.HasPrefix text (go "L+") = true ->
      Early.scanLine fs text st = ret st
      /\ forall before after,
          forM (before ++ text :: after) (Early.scanLine fs) st
          = forM (before ++ after) (Early.scanLine fs) st)
  /\ (Strings.HasPrefix text (go "L") = true ->
      Strings.HasPrefix text (go "L?") = false ->
      Strings.HasPrefix text (go "L+") = false ->
      Early.scanLine fs text st = parsed (Early.processLine fs) text st).
Proof.
  split; [|split; [|split]].
  - intros H. split; [by apply Later_scanLine_ignored|].
    intros before after. apply forM_inert. intros s. by apply Later_scanLine_ignored.
  - apply Later_scanLine_parsed.
  - intros H. split; [by apply Early_scanLine_ignored|].
    intros before after. apply forM_inert. intros s. by apply Early_scanLine_ignored.
  - apply Early_scanLine_parsed.
Qed.

Lemma C4_witness :
  Later.scanLine fs_nothing (go "d /run/x 0755 root root -") (0%Z, ∅) = ret (0%Z, ∅)
  /\ Later.scanLine fs_nothing (go "  L /x - - - - /missing") (0%Z, ∅)
     = parsed (Later.processLine fs_nothing) (go "L /x - - - - /missing") (0%Z, ∅)
  /\ Early.scanLine fs_nothing (go "L? /x - - - - /missing") (0%Z, ∅) = ret (0%Z, ∅)
  /\ Early.scanLine fs_nothing (go "L /x - - - - /missing") (0%Z, ∅)
     = parsed (Early.processLine fs_nothing) (go "L /x - - - - /missing") (0%Z, ∅).
Proof.
  pose proof (C4_lines_parsed fs_nothing (go "d /run/x 0755 root root -") (0%Z, ∅))
    as (Ha & _).
  pose proof (C4_lines_parsed fs_nothing (go "  L /x - - - - /missing") (0%Z, ∅))
    as (_ & Hb & _).
  pose proof (C4_lines_parsed fs_nothing (go "L? /x - - - - /missing") (0%Z, ∅))
    as (_ & _ & Hc & _).
  pose proof (C4_lines_parsed fs_nothing (go "L /x - - - - /missing") (0%Z, ∅))
    as (_ & _ & _ & Hd).
  split; [|split; [|split]].
  - apply Ha. reflexivity.
  - apply Hb. reflexivity.
  - apply Hc. right. left. reflexivity.
  - apply Hd; reflexivity.
Defined.

(** ** Completeness of the tracked directories *)

Lemma missingFiles_untracked dir linkedFiles ignoredFiles entries name :
  name ∈ missingFiles dir linkedFiles ignoredFiles entries
  <-> exists entry, entry ∈ entries /\ Name entry = name
                    /\ untracked dir linkedFiles ignoredFiles entry.
Proof.
  unfold untracked. induction entries as [|e entries IH]; simpl.
  - split; [by intros ?%elem_of_nil | by intros (? & ?%elem_of_nil & _)].
  - destruct (IsDir e) eqn:Hd;
      [|destruct (has ignoredFiles _) eqn:Hi;
        [|destruct (has linkedFiles (Name e)) eqn:Hl]]; simpl;
      rewrite ?elem_of_cons, IH; split.
    all: try (intros (x & Hx & Hn & Hu); exists x; rewrite elem_of_cons; by auto).
    all: try (intros (x & [->|Hx]%elem_of_cons & Hn & Hu1 & Hu2 & Hu3);
              [congruence | by eauto 6]).
    + intros [->|(x & Hx & Hn & Hu)].
      * exists e. rewrite elem_of_cons. by auto.
      * exists x. rewrite elem_of_cons. by auto.
    + intros (x & [->|Hx]%elem_of_cons & Hn & Hu); [by left | right; by eauto].
Qed.

Lemma missingFiles_nonempty dir linkedFiles ignoredFiles entries :
  missingFiles dir linkedFiles ignoredFiles entries <> []
  <-> exists entry, entry ∈ entries /\ untracked dir linkedFiles ignoredFiles entry.
Proof.
  split.
  - destruct (missingFiles _ _ _ _) as [|name l] eqn:Hm; [done|]. intros _.
    assert (name ∈ missingFiles dir linkedFiles ignoredFiles entries) as Hin
      by (rewrite Hm; left).
    apply missingFiles_untracked in Hin as (x & ? & _ & ?). eauto.
  - intros (x & Hx & Hu) Hm.
    assert (Name x ∈ missingFiles dir linkedFiles ignoredFiles entries) as Hin
      by (apply missingFiles_untracked; eauto).
    rewrite Hm in Hin. by apply elem_of_nil in Hin.
Qed.

Lemma Early_checkDirectory_with fs ignoredFiles d hadError :
  Early.checkDirectory fs ignoredFiles d hadError
  = checkDirectoryWith (fun _ => false) fs ignoredFiles d hadError.
Proof.
  destruct d as [dir linkedFiles].
  unfold Early.checkDirectory, checkDirectoryWith, ReadDir, bind. simpl.
  destruct (fs_readDir fs dir) as [entries|]; [|done].
  by destruct (missingFiles _ _ _ _).
Qed.

Lemma Later_checkDirectory_with fs ignoredFiles d hadError :
  Later.checkDirectory fs ignoredFiles d hadError
  = checkDirectoryWith Later.skipped fs ignoredFiles d hadError.
Proof.
  destruct d as [dir linkedFiles].
  unfold Later.checkDirectory, checkDirectoryWith, ReadDir, bind. simpl.
  destruct (Later.skipped dir); [done|].
  destruct (fs_readDir fs dir) as [entries|]; [|done].
  by destruct (missingFiles _ _ _ _).
Qed.

Lemma forM_ext {A S} (f g : A -> S -> W S) xs s :
  (forall x s, f x s = g x s) -> forM xs f s = forM xs g s.
Proof.
  intros H. revert s. induction xs as [|x xs IH]; intros s; simpl; [done|].
  rewrite H. apply bind_ext. intros s'. apply IH.
Qed.

Lemma reported_app dir l1 l2 :
  reported dir (l1 ++ l2) <-> reported dir l1 \/ reported dir l2.
Proof.
  unfold reported. split.
  - intros [ms [H|H]%elem_of_app]; eauto.
  - intros [[ms H]|[ms H]]; exists ms; apply elem_of_app; auto.
Qed.

Lemma reported_nil dir : ~ reported dir [].
Proof. by intros [ms H%elem_of_nil]. Qed.

Section CheckWith.
Context (skip : str -> bool) (fs : FS) (ignoredFiles : files).

Lemma checkWith_reported dir d linkedFiles b :
  reported dir (log (checkDirectoryWith skip fs ignoredFiles (d, linkedFiles) b))
  <-> d = dir /\ incompleteDir skip fs ignoredFiles dir linkedFiles.
Proof.
  unfold checkDirectoryWith, incompleteDir, entriesOf, reported. simpl.
  destruct (skip d) eqn:Hs.
  { split; [by intros [ms H%elem_of_nil] | intros [-> [? _]]; congruence]. }
  destruct (fs_readDir fs d) as [entries|] eqn:Hr; simpl.
  - pose proof (missingFiles_nonempty d linkedFiles ignoredFiles entries) as Hne.
    destruct (missingFiles d linkedFiles ignoredFiles entries) as [|n ms] eqn:Hm; simpl.
    + split.
      * intros [ms [[=]|H%elem_of_nil]%elem_of_cons]; done.
      * intros [-> [_ Hex]]. rewrite Hr in Hex. simpl in Hex.
        apply Hne in Hex. done.
    + split.
      * intros [ms' [[=]|[[= <- _]|H%elem_of_nil]%elem_of_cons]%elem_of_cons]; [|done].
        split; [done|]. split; [done|]. rewrite Hr. simpl. by apply Hne.
      * intros [-> _]. exists (n :: ms). right. left.
  - split.
    + intros [ms [[=]|H%elem_of_nil]%elem_of_cons]; done.
    + intros [-> [_ (x & Hx & _)]]. rewrite Hr in Hx. by apply elem_of_nil in Hx.
Qed.

Lemma checkWith_val d linkedFiles b :
  val (checkDirectoryWith skip fs ignoredFiles (d, linkedFiles) b) = true
  <-> b = true \/ incompleteDir skip fs ignoredFiles d linkedFiles.
Proof.
  unfold checkDirectoryWith, incompleteDir, entriesOf. simpl.
  destruct (skip d) eqn:Hs.
  { simpl. split; [auto | intros [?|[? _]]; congruence]. }
  destruct (fs_readDir fs d) as [entries|] eqn:Hr; simpl.
  - pose proof (missingFiles_nonempty d linkedFiles ignoredFiles entries) as Hne.
    destruct (missingFiles d linkedFiles ignoredFiles entries) as [|n ms] eqn:Hm; simpl.
    + split; [auto | intros [?|[_ Hex]]; [done|]]. apply Hne in Hex. done.
    + split; [|done]. intros _. right. split; [done|]. by apply Hne.
  - split; [auto | intros [?|[_ (x & Hx & _)]]; [done|]]. by apply elem_of_nil in Hx.
Qed.

Lemma forM_checkWith_reported dir xs b :
  reported dir (log (forM xs (checkDirectoryWith skip fs ignoredFiles) b))
  <-> exists linkedFiles,
        (dir, linkedFiles) ∈ xs
        /\ incompleteDir skip fs ignoredFiles dir linkedFiles.
Proof.
  revert b. induction xs as [|[d lf] xs IH]; intros b; simpl.
  - split; [by intros ?%reported_nil | by intros (? & ?%elem_of_nil & _)].
  - rewrite log_bind, reported_app, checkWith_reported, IH. split.
    + intros [[-> H]|(lf' & Hin & H)].
      * exists lf. split; [left | done].
      * exists lf'. split; [by right | done].
    + intros (lf' & [[= <- <-]|Hin]%elem_of_cons & H).
      * by left.
      * right. eauto.
Qed.

Lemma forM_checkWith_val xs b :
  val (forM xs (checkDirectoryWith skip fs ignoredFiles) b) = true
  <-> b = true
      \/ exists d linkedFiles,
           (d, linkedFiles) ∈ xs /\ incompleteDir skip fs ignoredFiles d linkedFiles.
Proof.
  revert b. induction xs as [|[d lf] xs IH]; intros b; simpl.
  - split; [auto | intros [?|(? & ? & ?%elem_of_nil & _)]; done].
  - rewrite val_bind, IH, checkWith_val. split.
    + intros [[?|H]|(d' & lf' & Hin & H)]; [by left| |].
      * right. exists d, lf. split; [left | done].
      * right. exists d', lf'. split; [by right | done].
    + intros [?|(d' & lf' & [[= <- <-]|Hin]%elem_of_cons & H)].
      * left. by left.
      * left. by right.
      * right. eauto.
Qed.

End CheckWith.

Lemma Early_check_reported (fs : FS) (linkedDirs : dirs) (ignoredFiles : files) (dir : str) :
  reported dir (log (Early.checkDirectoryCompleteness fs linkedDirs ignoredFiles))
  <-> exists linkedFiles,
        linkedDirs !! dir = Some linkedFiles
        /\ incompleteDir (fun _ => false) fs ignoredFiles dir linkedFiles.
Proof.
  unfold Early.checkDirectoryCompleteness.
  rewrite (forM_ext _ _ _ _ (Early_checkDirectory_with fs ignoredFiles)).
  rewrite log_bind, reported_app, forM_checkWith_reported.
  split.
  - intros [(lf & Hin%elem_of_map_to_list & H)|H]; [by eauto|].
    destruct (val _); by apply reported_nil in H.
  - intros (lf & Hin & H). left. exists lf. by rewrite elem_of_map_to_list.
Qed.

Lemma Later_check_reported (fs : FS) (linkedDirs : dirs) (ignoredFiles : files) (dir : str) :
  reported dir (log (Later.checkDirectoryCompleteness fs linkedDirs ignoredFiles))
  <-> exists linkedFiles,
        linkedDirs !! dir = Some linkedFiles
        /\ incompleteDir Later.skipped fs ignoredFiles dir linkedFiles.
Proof.
  unfold Later.checkDirectoryCompleteness.
  rewrite (forM_ext _ _ _ _ (Later_checkDirectory_with fs ignoredFiles)).
  rewrite log_bind, reported_app, forM_checkWith_reported.
  split.
  - intros [(lf & Hin%elem_of_map_to_list & H)|H]; [by eauto|].
    destruct (val _); by apply reported_nil in H.
  - intros (lf & Hin & H). left. exists lf. by rewrite elem_of_map_to_list.
Qed.

Lemma Early_check_error (fs : FS) (linkedDirs : dirs) (ignoredFiles : files) :
  val (Early.checkDirectoryCompleteness fs linkedDirs ignoredFiles) <> None
  <-> exists dir linkedFiles,
        linkedDirs !! dir = Some linkedFiles
        /\ incompleteDir (fun _ => false) fs ignoredFiles dir linkedFiles.
Proof.
  unfold Early.checkDirectoryCompleteness.
  rewrite (forM_ext _ _ _ _ (Early_checkDirectory_with fs ignoredFiles)).
  rewrite val_bind.
  pose proof (forM_checkWith_val (fun _ => false) fs ignoredFiles
                (map_to_list linkedDirs) false) as Hv.
  destruct (val (forM _ _ false)); simpl.
  - split; [intros _|done]. destruct Hv as [[?|(d & lf & Hin & H)] _]; [done..|].
    exists d, lf. by rewrite <- elem_of_map_to_list.
  - split; [done|]. intros (d & lf & Hin & H).
    destruct Hv as [_ Hv]. discriminate Hv. right. exists d, lf.
    by rewrite elem_of_map_to_list.
Qed.

Lemma Later_check_error (fs : FS) (linkedDirs : dirs) (ignoredFiles : files) :
  val (Later.checkDirectoryCompleteness fs linkedDirs ignoredFiles) <> None
  <-> exists dir linkedFiles,
        linkedDirs !! dir = Some linkedFiles
        /\ incompleteDir Later.skipped fs ignoredFiles dir linkedFiles.
Proof.
  unfold Later.checkDirectoryCompleteness.
  rewrite (forM_ext _ _ _ _ (Later_checkDirectory_with fs ignoredFiles)).
  rewrite val_bind.
  pose proof (forM_checkWith_val Later.skipped fs ignoredFiles
                (map_to_list linkedDirs) false) as Hv.
  destruct (val (forM _ _ false)); simpl.
  - split; [intros _|done]. destruct Hv as [[?|(d & lf & Hin & H)] _]; [done..|].
    exists d, lf. by rewrite <- elem_of_map_to_list.
  - split; [done|]. intros (d & lf & Hin & H).
    destruct Hv as [_ Hv]. discriminate Hv. right. exists d, lf.
    by rewrite elem_of_map_to_list.
Qed.

(** C1, as stated, fails in the later revision for the tracked directory
    [/srv/.git]: its file [HEAD] is neither ignored nor linked, and the
    directory is not reported, because the check skips every directory whose
    path contains [/.git]. *)
Lemma C1_counterexample :
  let fs := fs_one_conf [] (fun _ => true) git_listing in
  let linkedFiles : files := {[ go "config" := true ]} in
  let linkedDirs : dirs := {[ go "/srv/.git" := linkedFiles ]} in
  linkedDirs !! go "/srv/.git" = Some linkedFiles
  /\ (exists entry, entry ∈ entriesOf fs (go "/srv/.git")
                    /\ untracked (go "/srv/.git") linkedFiles ∅ entry)
  /\ ~ reported (go "/srv/.git")
         (log (Later.checkDirectoryCompleteness fs linkedDirs ∅))
  /\ val (Later.checkDirectoryCompleteness fs linkedDirs ∅) = None.
Proof.
  split; [reflexivity|]. split; [|split].
  - exists {| Name := go "HEAD"; IsDir := false |}. split; [left|].
    repeat split; vm_compute; reflexivity.
  - intros [ms H]. vm_compute in H. by apply elem_of_nil in H.
  - vm_compute. reflexivity.
Qed.

(** C1, amended.  A directory recorded in [linkedDirs] is reported as
    incomplete by [checkDirectoryCompleteness] exactly when its listing
    holds an entry that is not a directory, is not in the ignore set under
    its full path and is not recorded as a linked file under its name, and,
    in the later revision, the directory is not one the check skips (a path
    that contains [/.git], or [.] or [..]); a skipped directory is never
    reported.  A directory that cannot be listed has no entries.  The check
    returns an error exactly when it reports some directory. *)
Theorem C1_directory_completeness (fs : FS) (linkedDirs : dirs)
    (ignoredFiles : files) (dir : str) (linkedFiles : files) :
  linkedDirs !! dir = Some linkedFiles ->
  (reported dir (log (Early.checkDirectoryCompleteness fs linkedDirs ignoredFiles))
   <-> exists entry, entry ∈ entriesOf fs dir
                     /\ untracked dir linkedFiles ignoredFiles entry)
  /\ (Later.skipped dir = false ->
      (reported dir (log (Later.checkDirectoryCompleteness fs linkedDirs ignoredFiles))
       <-> exists entry, entry ∈ entriesOf fs dir
                         /\ untracked dir linkedFiles ignoredFiles entry))
  /\ (Later.skipped dir = true ->
      ~ reported dir (log (Later.checkDirectoryCompleteness fs linkedDirs ignoredFiles)))
  /\ (val (Early.checkDirectoryCompleteness fs linkedDirs ignoredFiles) <> None
      <-> exists d, reported d
            (log (Early.checkDirectoryCompleteness fs linkedDirs ignoredFiles)))
  /\ (val (Later.checkDirectoryCompleteness fs linkedDirs ignoredFiles) <> None
      <-> exists d, reported d
            (log (Later.checkDirectoryCompleteness fs linkedDirs ignoredFiles))).
Proof.
  intros Hdir. split; [|split; [|split; [|split]]].
  - rewrite Early_check_reported. unfold incompleteDir. split.
    + intros (lf & Hlf & _ & H). by replace linkedFiles with lf by congruence.
    + intros H. eauto.
  - intros Hs. rewrite Later_check_reported. unfold incompleteDir. split.
    + intros (lf & Hlf & _ & H). by replace linkedFiles with lf by congruence.
    + intros H. eauto.
  - intros Hs. rewrite Later_check_reported. unfold incompleteDir.
    intros (lf & _ & ? & _). congruence.
  - rewrite Early_check_error. split.
    + intros (d & lf & H). exists d. apply Early_check_reported. eauto.
    + intros (d & (lf & H)%Early_check_reported). eauto.
  - rewrite Later_check_error. split.
    + intros (d & lf & H). exists d. apply Later_check_reported. eauto.
    + intros (d & (lf & H)%Later_check_reported). eauto.
Qed.

Lemma C1_witness :
  reported (go "/srv/.git")
    (log (Early.checkDirectoryCompleteness
            (fs_one_conf [] (fun _ => true) git_listing)
            {[ go "/srv/.git" := {[ go "config" := true ]} ]} ∅)).
Proof.
  assert (({[ go "/srv/.git" := {[ go "config" := true ]} ]} : dirs) !! go "/srv/.git"
          = Some ({[ go "config" := true ]} : files)) as Hdir by reflexivity.
  apply (proj1 (C1_directory_completeness
                  (fs_one_conf [] (fun _ => true) git_listing) _ ∅ _ _ Hdir)).
  exists {| Name := go "HEAD"; IsDir := false |}.
  split; [left | repeat split; reflexivity].
Defined.

(** ** The exit code *)

Lemma Early_processLine_error fs line linkedDirs :
  fst (val (Early.processLine fs line linkedDirs)) <> None <-> Early_fails fs line.
Proof.
  unfold Early.processLine, Early_fails, Early_checked.
  destruct (Regexp.FindStringSubmatch Early.lineRegex line) as [m|] eqn:Hm.
  - destruct (_ || _) eqn:Ht; cbv [val bind Printf Stat ret fst snd];
      destruct (fs_stat fs _) eqn:Hs; try destruct (negb _); simpl; split; try done.
    all: try (intros (m' & [= <-] & H); rewrite Ht in H; congruence).
    all: intros _; exists m; rewrite Ht; done.
  - simpl. split; [done|]. by intros (m & [=] & _).
Qed.

(** The directive the code reads off a line is L? exactly when the line
    begins with L?. *)
Lemma directive_optional line :
  Strings.HasPrefix line (go "L") = true ->
  Strings.eqb (Later.directive line) (go "L?") = Strings.HasPrefix line (go "L?").
Proof.
  intros [t ->]%HasPrefix_L. change (go "L?") with [76; 63].
  destruct t as [|c t]; [done|]. unfold Later.directive.
  destruct (N.eqb_spec c 63) as [->|H63].
  - simpl. by destruct t.
  - assert (Strings.HasPrefix (76 :: c :: t) [76; 63] = false) as ->.
    { apply not_true_is_false. intros [u Hu]%HasPrefix_app.
      simpl in Hu. congruence. }
    simpl orb. destruct (c =? 43); apply eqb_neq; congruence.
Qed.

Lemma Later_processLine_error fs line linkedDirs :
  fst (val (Later.processLine fs line linkedDirs)) <> None <-> Later_fails fs line.
Proof.
  unfold Later_fails, Later_checked.
  destruct (Regexp.FindStringSubmatch Later.lineRegex line) as [m|] eqn:Hm.
  - unfold Later.processLine.
    assert (Strings.HasPrefix line (go "L") = true) as HL
      by (apply Later_match_L; by rewrite Hm).
    rewrite HL, Hm, (directive_optional line HL). simpl negb. cbv iota.
    destruct (Strings.HasPrefix line (go "L?")) eqn:Ho.
    + split.
      * intros H. exfalso. apply H. crunch_log; done.
      * by intros (m' & _ & ? & _).
    + destruct (_ || _) eqn:Ht; cbv [val bind Printf Stat ret fst snd Later.finish];
        repeat match goal with
               | |- context [fs_stat fs ?p] => destruct (fs_stat fs p) eqn:?
               | |- context [if ?b then _ else _] => destruct b
               end; simpl; split; try done.
      all: try (intros (m' & [= <-] & _ & H); rewrite Ht in H; congruence).
      all: intros _; exists m; rewrite Ht; done.
  - rewrite Later_processLine_unmatched by done. simpl.
    split; [done|]. by intros (m & [=] & _).
Qed.

(** A loop that raises a flag and never lowers it. *)
Lemma forM_flag {A S} (flag : S -> Prop) (hit : A -> Prop)
    (body : A -> S -> W S) (xs : list A) (s : S) :
  (forall x s, flag (val (body x s)) <-> flag s \/ hit x) ->
  flag (val (forM xs body s)) <-> flag s \/ exists x, x ∈ xs /\ hit x.
Proof.
  intros Hb. revert s. induction xs as [|x xs IH]; intros s; simpl.
  - split; [auto | intros [?|(? & ?%elem_of_nil & _)]; done].
  - rewrite val_bind, IH, Hb. split.
    + intros [[?|?]|(y & Hy & ?)]; [by left| |].
      * right. exists x. split; [left | done].
      * right. exists y. split; [by right | done].
    + intros [?|(y & [->|Hy]%elem_of_cons & ?)]; [left; by left|left; by right|].
      right. eauto.
Qed.

Lemma space_not_directive c :
  Regexp.space c = true -> (c =? 63) || (c =? 43) = false.
Proof.
  unfold Regexp.space. rewrite !orb_true_iff, !N.eqb_eq.
  intros [[[[->| ->]| ->]| ->]| ->]; reflexivity.
Qed.

(** A line the earlier pattern matches has white space after its L. *)
Lemma Early_match_plain line :
  Regexp.FindStringSubmatch Early.lineRegex line <> None ->
  Strings.HasPrefix line (go "L") = true
  /\ Strings.HasPrefix line (go "L?") = false
  /\ Strings.HasPrefix line (go "L+") = false.
Proof.
  intros H. apply RegexpFacts.FindStringSubmatch_matches in H as [g H].
  inversion H; subst.
  match goal with
  | H1 : Regexp.parses (Regexp.Plus _ :: _) _ _ _ _ |- _ => inversion H1; subst
  end.
  match goal with
  | Hw : forallb _ ?w = true |- _ =>
      destruct w as [|d w]; [done|]; simpl in Hw; apply andb_true_iff in Hw as [Hd _]
  end.
  apply space_not_directive in Hd. apply orb_false_iff in Hd as [H63 H43].
  apply N.eqb_neq in H63, H43.
  split; [apply HasPrefix_L; eauto|].
  change (go "L?") with [76; 63]. change (go "L+") with [76; 43].
  split; apply not_true_is_false; intros [t Ht]%HasPrefix_app;
    simpl in Ht; injection Ht as Ht _; congruence.
Qed.

Lemma Early_scanLine_exit fs line st :
  fst (val (Early.scanLine fs line st)) <> 0%Z
  <-> fst st <> 0%Z \/ Early_fails fs line.
Proof.
  destruct st as [exitCode linkedDirs]. unfold Early.scanLine.
  destruct (_ || _) eqn:Hskip.
  - simpl. split; [auto|]. intros [?|(m & Hm & _)]; [done|].
    destruct (Early_match_plain line) as (H1 & H2 & H3); [by rewrite Hm|].
    rewrite H1, H2, H3 in Hskip. done.
  - rewrite val_bind, <- (Early_processLine_error fs line linkedDirs).
    destruct (val (Early.processLine fs line linkedDirs)) as [[e|] ld]; simpl.
    + split; [by right | done].
    + split; [by left | by intros [?|?]].
Qed.

Lemma Later_scanLine_exit fs text st :
  fst (val (Later.scanLine fs text st)) <> 0%Z
  <-> fst st <> 0%Z \/ Later_fails fs (Strings.TrimSpace text).
Proof.
  destruct (Strings.HasPrefix (Strings.TrimSpace text) (go "L")) eqn:HL.
  - rewrite Later_scanLine_parsed by done. unfold parsed.
    rewrite val_bind, <- (Later_processLine_error fs _ (snd st)).
    destruct (val (Later.processLine fs _ (snd st))) as [[e|] ld]; simpl.
    + split; [by right | done].
    + split; [by left | by intros [?|?]].
  - rewrite Later_scanLine_ignored by done. simpl.
    split; [auto|]. intros [?|(m & Hm & _)]; [done|].
    rewrite (Later_match_L (Strings.TrimSpace text)) in HL; [done|by rewrite Hm].
Qed.

Lemma Early_scanConfigs_exit fs :
  fst (val (Early.scanConfigs fs)) <> 0%Z
  <-> (exists file, file ∈ fs_glob fs confPattern /\ fs_open fs file = None)
      \/ (exists file lines line,
            file ∈ fs_glob fs confPattern /\ fs_open fs file = Some lines
            /\ line ∈ lines /\ Early_fails fs line).
Proof.
  unfold Early.scanConfigs. rewrite val_bind.
  rewrite (forM_flag (fun st => fst st <> 0%Z)
             (fun file => fs_open fs file = None
                          \/ exists lines line, fs_open fs file = Some lines
                                                /\ line ∈ lines /\ Early_fails fs line)).
  - simpl. split.
    + intros [?|(file & Hf & [Ho|(lines & line & H)])]; [done|left|right]; eauto 6.
    + intros [(file & Hf & Ho)|(file & lines & line & Hf & H)]; right; eauto 8.
  - intros file st. unfold Early.scanFile. rewrite val_bind. simpl.
    destruct (fs_open fs file) as [lines|] eqn:Ho.
    + rewrite (forM_flag (fun st => fst st <> 0%Z) (Early_fails fs)).
      * split.
        -- intros [?|(line & Hl & Hf)]; [by left|]. right. right. eauto.
        -- intros [?|[?|(lines' & line & [= <-] & Hl & Hf)]]; [by left|done|].
           right. eauto.
      * intros line st'. apply Early_scanLine_exit.
    + simpl. split; [intros _; right; by left | done].
Qed.

Lemma Later_scanConfigs_exit fs :
  fst (val (Later.scanConfigs fs)) <> 0%Z
  <-> (exists file, file ∈ fs_glob fs confPattern /\ fs_open fs file = None)
      \/ (exists file lines text,
            file ∈ fs_glob fs confPattern /\ fs_open fs file = Some lines
            /\ text ∈ lines /\ Later_fails fs (Strings.TrimSpace text)).
Proof.
  unfold Later.scanConfigs. rewrite val_bind.
  rewrite (forM_flag (fun st => fst st <> 0%Z)
             (fun file => fs_open fs file = None
                          \/ exists lines text,
                               fs_open fs file = Some lines /\ text ∈ lines
                               /\ Later_fails fs (Strings.TrimSpace text))).
  - simpl. split.
    + intros [?|(file & Hf & [Ho|(lines & line & H)])]; [done|left|right]; eauto 6.
    + intros [(file & Hf & Ho)|(file & lines & line & Hf & H)]; right; eauto 8.
  - intros file st. unfold Later.scanFile. rewrite val_bind. simpl.
    destruct (fs_open fs file) as [lines|] eqn:Ho.
    + rewrite (forM_flag (fun st => fst st <> 0%Z)
                 (fun text => Later_fails fs (Strings.TrimSpace text))).
      * split.
        -- intros [?|(line & Hl & Hf)]; [by left|]. right. right. eauto.
        -- intros [?|[?|(lines' & line & [= <-] & Hl & Hf)]]; [by left|done|].
           right. eauto.
      * intros line st'. apply Later_scanLine_exit.
    + simpl. split; [intros _; right; by left | done].
Qed.

Lemma Early_main_val fs :
  val (Early.main fs)
  = match val (Early.checkDirectoryCompleteness fs (snd (val (Early.scanConfigs fs)))
                 (val (loadIgnoreFiles fs))) with
    | Some _ => 1%Z
    | None => fst (val (Early.scanConfigs fs))
    end.
Proof.
  unfold Early.main. rewrite val_bind.
  destruct (val (Early.scanConfigs fs)) as [exitCode linkedDirs].
  by rewrite !val_bind.
Qed.

Lemma Later_main_val fs :
  val (Later.main fs)
  = match val (Later.checkDirectoryCompleteness fs (snd (val (Later.scanConfigs fs)))
                 (val (loadIgnoreFiles fs))) with
    | Some _ => 1%Z
    | None => fst (val (Later.scanConfigs fs))
    end.
Proof.
  unfold Later.main. rewrite val_bind.
  destruct (val (Later.scanConfigs fs)) as [exitCode linkedDirs].
  by rewrite !val_bind.
Qed.

Lemma Early_scanConfigs_code fs :
  fst (val (Early.scanConfigs fs)) = 0%Z \/ fst (val (Early.scanConfigs fs)) = 1%Z.
Proof.
  unfold Early.scanConfigs. rewrite val_bind.
  apply (forM_inv (fun st => fst st = 0%Z \/ fst st = 1%Z)); [by left|].
  intros file st _ Hst. unfold Early.scanFile. rewrite val_bind.
  destruct (val (Open fs file)) as [lines|]; [|by right].
  apply (forM_inv (fun st => fst st = 0%Z \/ fst st = 1%Z)); [done|].
  intros line [exitCode ld] _ Hc. unfold Early.scanLine.
  destruct (_ || _); [done|]. rewrite val_bind.
  destruct (val (Early.processLine fs line ld)) as [[e|] ld']; [by right | done].
Qed.

Lemma Later_scanConfigs_code fs :
  fst (val (Later.scanConfigs fs)) = 0%Z \/ fst (val (Later.scanConfigs fs)) = 1%Z.
Proof.
  unfold Later.scanConfigs. rewrite val_bind.
  apply (forM_inv (fun st => fst st = 0%Z \/ fst st = 1%Z)); [by left|].
  intros file st _ Hst. unfold Later.scanFile. rewrite val_bind.
  destruct (val (Open fs file)) as [lines|]; [|by right].
  apply (forM_inv (fun st => fst st = 0%Z \/ fst st = 1%Z)); [done|].
  intros line [exitCode ld] _ Hc. unfold Later.scanLine.
  destruct (_ || _); [done|]. destruct (Strings.HasPrefix _ _); [|done].
  rewrite val_bind.
  destruct (val (Later.processLine fs _ ld)) as [[e|] ld']; [by right | done].
Qed.

(** The causes of a nonzero exit code in the later revision: the code is 0
    or 1, and it is not 0 exactly when a configuration file found by the
    glob cannot be opened, or a line of a configuration file is, once
    trimmed, a declaration that is not optional and whose target (the
    resolved explicit target, or the factory default) does not exist, or a
    directory tracked at the end of the scan is found incomplete. *)
Lemma Later_exit_causes (fs : FS) :
  (val (Later.main fs) <> 0%Z
   <-> (exists file, file ∈ fs_glob fs confPattern /\ fs_open fs file = None)
       \/ (exists file lines text,
             file ∈ fs_glob fs confPattern /\ fs_open fs file = Some lines
             /\ text ∈ lines /\ Later_fails fs (Strings.TrimSpace text))
       \/ (exists dir linkedFiles,
             snd (val (Later.scanConfigs fs)) !! dir = Some linkedFiles
             /\ incompleteDir Later.skipped fs (val (loadIgnoreFiles fs))
                  dir linkedFiles))
  /\ (val (Later.main fs) = 0%Z \/ val (Later.main fs) = 1%Z).
Proof.
  split.
  - rewrite Later_main_val.
    pose proof (Later_check_error fs (snd (val (Later.scanConfigs fs)))
                  (val (loadIgnoreFiles fs))) as Hc.
    pose proof (Later_scanConfigs_exit fs) as Hs.
    destruct (val (Later.checkDirectoryCompleteness _ _ _)) as [e|].
    + split; [intros _; right; right; by apply Hc | done].
    + assert (~ (None : option error) <> None) as Hn by (intros H; by apply H).
      tauto.
  - rewrite Later_main_val. destruct (val (Later.checkDirectoryCompleteness _ _ _)).
    + by right.
    + apply Later_scanConfigs_code.
Qed.

(** The same for the earlier revision, where the path checked for a
    declaration is the factory default or the whole remainder of the line
    after the three placeholders. *)
Lemma Early_exit_causes (fs : FS) :
  (val (Early.main fs) <> 0%Z
   <-> (exists file, file ∈ fs_glob fs confPattern /\ fs_open fs file = None)
       \/ (exists file lines line,
             file ∈ fs_glob fs confPattern /\ fs_open fs file = Some lines
             /\ line ∈ lines /\ Early_fails fs line)
       \/ (exists dir linkedFiles,
             snd (val (Early.scanConfigs fs)) !! dir = Some linkedFiles
             /\ incompleteDir (fun _ => false) fs (val (loadIgnoreFiles fs))
                  dir linkedFiles))
  /\ (val (Early.main fs) = 0%Z \/ val (Early.main fs) = 1%Z).
Proof.
  split.
  - rewrite Early_main_val.
    pose proof (Early_check_error fs (snd (val (Early.scanConfigs fs)))
                  (val (loadIgnoreFiles fs))) as Hc.
    pose proof (Early_scanConfigs_exit fs) as Hs.
    destruct (val (Early.checkDirectoryCompleteness _ _ _)) as [e|].
    + split; [intros _; right; right; by apply Hc | done].
    + assert (~ (None : option error) <> None) as Hn by (intros H; by apply H).
      tauto.
  - rewrite Early_main_val. destruct (val (Early.checkDirectoryCompleteness _ _ _)).
    + by right.
    + apply Early_scanConfigs_code.
Qed.

(** ** The grammar of a declaration *)






(** *** Fields and trimming *)




Lemma fields_go_pending s cur : cur <> [] -> Strings.fields_go s cur <> [].
Proof.
  revert cur. induction s as [|c s IH]; intros cur Hcur; simpl.
  - by destruct cur.
  - destruct (Strings.IsSpace c); [by destruct cur | by apply IH].
Qed.


Lemma TrimLeftFunc_head f s c s' :
  Strings.TrimLeftFunc f s = c :: s' -> f c = false.
Proof.
  induction s as [|d s IH]; simpl; [done|].
  destruct (f d) eqn:Hd; [done|]. by intros [= <- _].
Qed.








(** * Further properties of the code *)

(** ** What [processLine] does to [linkedDirs] *)

Lemma has_insert (m : files) (k n : str) :
  has (<[k := true]> m) n = bool_decide (k = n) || has m n.
Proof.
  unfold has. destruct (decide (k = n)) as [->|Hne].
  - by rewrite lookup_insert_eq, bool_decide_eq_true_2.
  - by rewrite lookup_insert_ne, bool_decide_eq_false_2.
Qed.

Lemma linked_record (dir base : str) (linkedDirs : dirs) (d n : str) :
  linked (record dir base linkedDirs) d n
  = bool_decide (dir = d) && bool_decide (base = n) || linked linkedDirs d n.
Proof.
  unfold linked. destruct (decide (dir = d)) as [->|Hne].
  - rewrite record_same, bool_decide_eq_true_2 by done. simpl. apply has_insert.
  - by rewrite record_other, bool_decide_eq_false_2.
Qed.

Lemma linked_record_same (dir base : str) (linkedDirs : dirs) :
  linked (record dir base linkedDirs) dir base = true.
Proof. rewrite linked_record, !bool_decide_eq_true_2; done. Qed.

Lemma linked_record_mono (dir base : str) (linkedDirs : dirs) (d n : str) :
  linked linkedDirs d n = true -> linked (record dir base linkedDirs) d n = true.
Proof. intros H. rewrite linked_record, H. apply orb_true_r. Qed.

Ltac grows :=
  match goal with
  | H : ?x = true |- ?x = true => exact H
  | |- linked (record _ _ _) _ _ = true => apply linked_record_mono; assumption
  end.

(** X1: [linkedDirs] only grows.  Whatever the line and the filesystem, a
    name that was recorded as linked in a directory before [processLine]
    is still recorded after it, in both revisions. *)
Theorem X1_linkedDirs_grows (fs : FS) (line : str) (linkedDirs : dirs) (dir name : str) :
  linked linkedDirs dir name = true ->
  linked (snd (val (Early.processLine fs line linkedDirs))) dir name = true
  /\ linked (snd (val (Later.processLine fs line linkedDirs))) dir name = true.
Proof.
  intros H. split.
  - unfold Early.processLine. crunch_log; grows.
  - unfold Later.processLine, Later.track. crunch_log; grows.
Qed.

Lemma X1_witness :
  linked (snd (val (Later.processLine (fs_one_conf [] (fun _ => true) (fun _ => None))
                      (go "L /etc/x - - - - /opt/app/b")
                      (record (go "/opt/app") (go "a") ∅)))) (go "/opt/app") (go "a")
  = true.
Proof.
  apply (X1_linkedDirs_grows (fs_one_conf [] (fun _ => true) (fun _ => None))
           (go "L /etc/x - - - - /opt/app/b") (record (go "/opt/app") (go "a") ∅)
           (go "/opt/app") (go "a")).
  reflexivity.
Defined.

(** X2: a declaration that fails leaves no trace.  When [processLine]
    returns an error, [linkedDirs] is exactly what it was, in both
    revisions. *)
Theorem X2_error_leaves_linkedDirs (fs : FS) (line : str) (linkedDirs : dirs) :
  (fst (val (Early.processLine fs line linkedDirs)) <> None ->
   snd (val (Early.processLine fs line linkedDirs)) = linkedDirs)
  /\ (fst (val (Later.processLine fs line linkedDirs)) <> None ->
      snd (val (Later.processLine fs line linkedDirs)) = linkedDirs).
Proof.
  split.
  - unfold Early.processLine. crunch_log; done.
  - unfold Later.processLine, Later.track. crunch_log; done.
Qed.

Lemma X2_witness :
  snd (val (Later.processLine fs_nothing (go "L /etc/x - - - - /opt/app/b")
              (record (go "/opt/app") (go "a") ∅)))
  = record (go "/opt/app") (go "a") ∅.
Proof.
  apply (X2_error_leaves_linkedDirs fs_nothing (go "L /etc/x - - - - /opt/app/b")
           (record (go "/opt/app") (go "a") ∅)).
  discriminate.
Defined.

(** X3: in the later revision a declaration whose checked path (the
    resolved target, or the factory default) exists, in a directory that is
    not a base directory, is accepted without error and recorded:
    afterwards [linkedDirs[Dir(p)][Base(p)]] reads true. *)
Theorem X3_existing_target_recorded (fs : FS) (line : str) (linkedDirs : dirs)
    (m : list str) :
  Regexp.FindStringSubmatch Later.lineRegex line = Some m ->
  fs_stat fs (Later_checked m) = true ->
  Later.isBaseDir (Filepath.Dir (Later_checked m)) = false ->
  fst (val (Later.processLine fs line linkedDirs)) = None
  /\ linked (snd (val (Later.processLine fs line linkedDirs)))
       (Filepath.Dir (Later_checked m)) (Filepath.Base (Later_checked m)) = true.
Proof.
  intros Hm Hs Hb. unfold Later.processLine, Later_checked in *.
  rewrite (Later_match_L line) by (by rewrite Hm). rewrite Hm. simpl negb. cbv iota.
  destruct (_ || _); unfold Later.track;
    cbv [val bind Printf Stat ret fst snd Later.finish];
    rewrite Hs, Hb; simpl negb; cbv iota;
    repeat match goal with
           | |- context [if ?b then _ else _] => destruct b
           end; simpl; (split; [done | apply linked_record_same]).
Qed.

Lemma X3_witness :
  linked (snd (val (Later.processLine (fs_one_conf [] (fun _ => true) (fun _ => None))
                      (go "L /etc/motd - - - - -") ∅)))
    (go "/usr/share/factory/etc") (go "motd") = true.
Proof.
  apply (X3_existing_target_recorded (fs_one_conf [] (fun _ => true) (fun _ => None))
           (go "L /etc/motd - - - - -") ∅
           [go "L /etc/motd - - - - -"; go "/etc/motd"; go "- -"]);
    reflexivity.
Defined.

(** X4: the earlier revision tracks explicit targets only.  A declaration
    whose target is empty or [-] never changes [linkedDirs], whether its
    factory default exists or not; a declaration with an explicit target
    that exists in a directory that is not a base directory is recorded
    under the directory and the base name of the target as written. *)
Theorem X4_early_tracks_explicit_only (fs : FS) (line : str) (linkedDirs : dirs)
    (m : list str) :
  Regexp.FindStringSubmatch Early.lineRegex line = Some m ->
  let target := cleanQuotes (nth 2 m []) in
  (target = [] \/ target = go "-" ->
   snd (val (Early.processLine fs line linkedDirs)) = linkedDirs)
  /\ (target <> [] -> target <> go "-" -> fs_stat fs target = true ->
      Early.isBaseDir (Filepath.Dir target) = false ->
      snd (val (Early.processLine fs line linkedDirs))
      = record (Filepath.Dir target) (Filepath.Base target) linkedDirs).
Proof.
  intros Hm target. unfold Early.processLine. rewrite Hm. fold target. split.
  - intros Ht.
    replace (Strings.eqb target [] || Strings.eqb target (go "-")) with true.
    + cbv [val bind Printf Stat ret fst snd]. by destruct (fs_stat fs _).
    + symmetry. apply orb_true_iff. destruct Ht as [Ht|Ht]; [left|right]; by apply eqb_eq.
  - intros He Hd Hs Hb. apply eqb_neq in He, Hd. rewrite He, Hd. simpl orb. cbv iota.
    cbv [val bind Printf Stat ret fst snd]. by rewrite Hs, Hb.
Qed.

Lemma X4_witness :
  snd (val (Early.processLine (fs_one_conf [] (fun _ => true) (fun _ => None))
              (go "L /etc/motd - - - -") ∅)) = ∅
  /\ snd (val (Early.processLine (fs_one_conf [] (fun _ => true) (fun _ => None))
                 (go "L /etc/x - - - /opt/app/b") ∅))
     = record (go "/opt/app") (go "b") ∅.
Proof.
  split.
  - apply (X4_early_tracks_explicit_only
             (fs_one_conf [] (fun _ => true) (fun _ => None))
             (go "L /etc/motd - - - -") ∅
             [go "L /etc/motd - - - -"; go "/etc/motd"; go "-"] eq_refl).
    right. reflexivity.
  - apply (X4_early_tracks_explicit_only
             (fs_one_conf [] (fun _ => true) (fun _ => None))
             (go "L /etc/x - - - /opt/app/b") ∅
             [go "L /etc/x - - - /opt/app/b"; go "/etc/x"; go "/opt/app/b"] eq_refl);
      [discriminate | discriminate | reflexivity | reflexivity].
Defined.

(** ** The ignore rules *)

Lemma loadIgnoreFiles_line (p : str) (file : str) (text : str) (ignoredFiles : files) :
  let body := fun text ignoredFiles =>
    let line := Strings.TrimSpace text in
    if Strings.eqb line [] || Strings.HasPrefix line (go "#")
    then ret ignoredFiles
    else Printf (MIgnoreRule line file) ;; ret (<[line := true]> ignoredFiles) in
  has (val (body text ignoredFiles)) p = true
  <-> has ignoredFiles p = true
      \/ (ignore_rule text = true /\ Strings.TrimSpace text = p).
Proof.
  simpl. unfold ignore_rule. destruct (_ || _); simpl.
  - split; [auto | intros [?|[? _]]; done].
  - rewrite has_insert, orb_true_iff, bool_decide_eq_true. split.
    + intros [?|?]; [right | left]; done.
    + intros [?|[_ ?]]; [right | left]; done.
Qed.

(** X5: the ignore set is made of the rules of the ignore files that could
    be opened, and of nothing else: a path is ignored exactly when some
    file matching [/usr/share/tmpfiles.d/*.ignore] opens and has a line
    that, trimmed, is that path and is neither empty nor a comment.  A file
    that cannot be opened contributes nothing. *)
Theorem X5_ignore_set (fs : FS) (p : str) :
  has (val (loadIgnoreFiles fs)) p = true
  <-> exists file lines text,
        file ∈ fs_glob fs ignorePattern /\ fs_open fs file = Some lines
        /\ text ∈ lines /\ ignore_rule text = true /\ Strings.TrimSpace text = p.
Proof.
  unfold loadIgnoreFiles. rewrite val_bind.
  rewrite (forM_flag (fun ign : files => has ign p = true)
             (fun file => exists lines text,
                  fs_open fs file = Some lines /\ text ∈ lines
                  /\ ignore_rule text = true /\ Strings.TrimSpace text = p)).
  - simpl. split.
    + intros [?|(file & Hf & lines & text & H)]; [done|]. eauto 8.
    + intros (file & lines & text & Hf & H). right. eauto 8.
  - intros file ign. rewrite val_bind. simpl.
    destruct (fs_open fs file) as [lines|] eqn:Ho.
    + rewrite (forM_flag (fun ign : files => has ign p = true)
                 (fun text => ignore_rule text = true /\ Strings.TrimSpace text = p)).
      * split.
        -- intros [?|(text & Hl & H)]; [by left|]. right. eauto.
        -- intros [?|(lines' & text & [= <-] & Hl & H)]; [by left|]. right. eauto.
      * intros text ign'. apply (loadIgnoreFiles_line p file text ign').
    + simpl. split; [auto|]. intros [?|(lines & text & [=] & _)]. done.
Qed.

Lemma X5_witness :
  has (val (loadIgnoreFiles
              {| fs_glob := fun _ => [go "/usr/share/tmpfiles.d/a.ignore"];
                 fs_open := fun _ => Some [go "# rules"; go "  /opt/app/cache  "];
                 fs_stat := fun _ => true;
                 fs_readDir := fun _ => None |})) (go "/opt/app/cache") = true.
Proof.
  apply (proj2 (X5_ignore_set _ (go "/opt/app/cache"))).
  exists (go "/usr/share/tmpfiles.d/a.ignore"),
         [go "# rules"; go "  /opt/app/cache  "], (go "  /opt/app/cache  ").
  split; [left|]. split; [reflexivity|]. split; [right; left|].
  split; reflexivity.
Defined.

(** ** The summary and the check agree *)

Lemma classify_missing dir linkedFiles ignoredFiles entries :
  fst (fst (classify dir linkedFiles ignoredFiles entries))
  = missingFiles dir linkedFiles ignoredFiles entries.
Proof.
  induction entries as [|e entries IH]; simpl; [done|].
  destruct (classify dir linkedFiles ignoredFiles entries) as [[ms ig] al].
  simpl in IH. subst ms.
  destruct (IsDir e); [done|]. destruct (has ignoredFiles _); [done|].
  by destruct (has linkedFiles (Name e)).
Qed.

Lemma classify_count dir linkedFiles ignoredFiles entries :
  let '(missing, ignored, actualLinked) :=
    classify dir linkedFiles ignoredFiles entries in
  (length missing + length ignored + length actualLinked
   = length (filter (fun e => IsDir e = false) entries))%nat.
Proof.
  induction entries as [|e entries IH]; simpl; [done|].
  destruct (classify dir linkedFiles ignoredFiles entries) as [[ms ig] al].
  rewrite filter_cons. destruct (IsDir e) eqn:Hd.
  - by rewrite decide_False.
  - rewrite decide_True by done.
    destruct (has ignoredFiles _); [|destruct (has linkedFiles (Name e))];
      simpl; lia.
Qed.

(** X6: the summary and the completeness check classify alike.  For any
    listing, the files the summary calls missing are, in the same order,
    the files the check calls missing, and every entry that is not a
    directory is counted once among the missing, the ignored and the linked
    files of the summary. *)
Theorem X6_summary_agrees_with_check (dir : str) (linkedFiles ignoredFiles : files)
    (entries : list DirEntry) :
  fst (fst (classify dir linkedFiles ignoredFiles entries))
  = missingFiles dir linkedFiles ignoredFiles entries
  /\ (length (fst (fst (classify dir linkedFiles ignoredFiles entries)))
      + length (snd (fst (classify dir linkedFiles ignoredFiles entries)))
      + length (snd (classify dir linkedFiles ignoredFiles entries))
      = length (filter (fun e => IsDir e = false) entries))%nat.
Proof.
  split; [apply classify_missing|].
  pose proof (classify_count dir linkedFiles ignoredFiles entries) as H.
  by destruct (classify dir linkedFiles ignoredFiles entries) as [[ms ig] al].
Qed.

Lemma forM_unit_elem {A} (body : A -> unit -> W unit) (xs : list A) (e : event) :
  e ∈ log (forM xs body tt) <-> exists x, x ∈ xs /\ e ∈ log (body x tt).
Proof.
  induction xs as [|x xs IH]; simpl.
  - split; [by intros ?%elem_of_nil | by intros (? & ?%elem_of_nil & _)].
  - rewrite log_bind, elem_of_app. destruct (val (body x tt)). rewrite IH. split.
    + intros [H|(y & Hy & H)]; [exists x | exists y]; split; try done; [left | by right].
    + intros (y & [->|Hy]%elem_of_cons & H); [by left | right; eauto].
Qed.

Lemma incompleteDir_listing skip fs ignoredFiles dir linkedFiles :
  incompleteDir skip fs ignoredFiles dir linkedFiles
  <-> skip dir = false
      /\ exists entries, fs_readDir fs dir = Some entries
                         /\ missingFiles dir linkedFiles ignoredFiles entries <> [].
Proof.
  unfold incompleteDir, entriesOf. split.
  - intros [Hs (x & Hx & Hu)]. split; [done|].
    destruct (fs_readDir fs dir) as [entries|]; simpl in Hx.
    + exists entries. split; [done|]. apply missingFiles_nonempty. eauto.
    + by apply elem_of_nil in Hx.
  - intros [Hs (entries & -> & Hm)]. split; [done|]. simpl.
    by apply missingFiles_nonempty.
Qed.

Lemma summarize_flagged dir linkedFiles ignoredFiles entries d :
  Stdout (MSummaryDir d true) ∈ log (summarize dir linkedFiles ignoredFiles entries)
  <-> d = dir /\ missingFiles dir linkedFiles ignoredFiles entries <> [].
Proof.
  rewrite <- classify_missing. unfold summarize.
  destruct (classify dir linkedFiles ignoredFiles entries) as [[ms ig] al]. simpl fst.
  destruct ms, ig, al; cbv [log bind Printf ret snd fst app];
    rewrite ?elem_of_cons, ?elem_of_nil; intuition congruence.
Qed.

Lemma Early_printSummary_flagged (fs : FS) (linkedDirs : dirs) (ignoredFiles : files)
    (dir : str) :
  Stdout (MSummaryDir dir true) ∈ log (Early.printSummary fs linkedDirs ignoredFiles)
  <-> exists linkedFiles,
        linkedDirs !! dir = Some linkedFiles
        /\ incompleteDir (fun _ => false) fs ignoredFiles dir linkedFiles.
Proof.
  unfold Early.printSummary. rewrite log_bind, elem_of_app, forM_unit_elem.
  split.
  - intros [H|([d lf] & Hin%elem_of_map_to_list & H)].
    { simpl in H. apply elem_of_cons in H as [[=]|H%elem_of_nil]. done. }
    unfold ReadDir in H. rewrite log_bind in H. simpl in H.
    apply elem_of_cons in H as [[=]|H].
    destruct (fs_readDir fs d) as [entries|] eqn:Hr.
    + apply summarize_flagged in H as [-> Hm]. exists lf. split; [done|].
      apply incompleteDir_listing. eauto.
    + simpl in H. apply elem_of_cons in H as [[=]|H%elem_of_nil]. done.
  - intros (lf & Hl & [_ (entries & Hr & Hm)]%incompleteDir_listing).
    right. exists (dir, lf). split; [by apply elem_of_map_to_list|].
    unfold ReadDir. rewrite log_bind. simpl. right. rewrite Hr.
    by apply summarize_flagged.
Qed.

Lemma Later_printSummary_flagged (fs : FS) (linkedDirs : dirs) (ignoredFiles : files)
    (dir : str) :
  Stdout (MSummaryDir dir true) ∈ log (Later.printSummary fs linkedDirs ignoredFiles)
  <-> exists linkedFiles,
        linkedDirs !! dir = Some linkedFiles
        /\ incompleteDir Later.skipped fs ignoredFiles dir linkedFiles.
Proof.
  unfold Later.printSummary. rewrite log_bind, elem_of_app, forM_unit_elem.
  split.
  - intros [H|([d lf] & Hin%elem_of_map_to_list & H)].
    { simpl in H. apply elem_of_cons in H as [[=]|H%elem_of_nil]. done. }
    destruct (Later.skipped d) eqn:Hs.
    { by apply elem_of_nil in H. }
    unfold ReadDir in H. rewrite log_bind in H. simpl in H.
    apply elem_of_cons in H as [[=]|H].
    destruct (fs_readDir fs d) as [entries|] eqn:Hr.
    + apply summarize_flagged in H as [-> Hm]. exists lf. split; [done|].
      apply incompleteDir_listing. eauto.
    + simpl in H. apply elem_of_cons in H as [[=]|H%elem_of_nil]. done.
  - intros (lf & Hl & [Hs (entries & Hr & Hm)]%incompleteDir_listing).
    right. exists (dir, lf). split; [by apply elem_of_map_to_list|].
    rewrite Hs. unfold ReadDir. rewrite log_bind. simpl. right. rewrite Hr.
    by apply summarize_flagged.
Qed.

(** X7: the directories the summary prints as incomplete (in bold red,
    with their missing files) are exactly the directories the completeness
    check reported, in both revisions: the two passes over [linkedDirs]
    never disagree on the same filesystem. *)
Theorem X7_summary_flags_reported (fs : FS) (linkedDirs : dirs)
    (ignoredFiles : files) (dir : str) :
  (Stdout (MSummaryDir dir true) ∈ log (Early.printSummary fs linkedDirs ignoredFiles)
   <-> reported dir (log (Early.checkDirectoryCompleteness fs linkedDirs ignoredFiles)))
  /\ (Stdout (MSummaryDir dir true) ∈ log (Later.printSummary fs linkedDirs ignoredFiles)
      <-> reported dir (log (Later.checkDirectoryCompleteness fs linkedDirs ignoredFiles))).
Proof.
  split.
  - by rewrite Early_printSummary_flagged, Early_check_reported.
  - by rewrite Later_printSummary_flagged, Later_check_reported.
Qed.

(** ** The two patterns *)

Lemma run_star_skip cl1 cl2 p s cur caps r :
  (forall d, Regexp.in_class cl2 d = true -> Regexp.in_class cl1 d = false) ->
  Regexp.run (Regexp.Plus cl2 :: p) s cur caps = Some r ->
  Regexp.run (Regexp.Star cl1 :: Regexp.Plus cl2 :: p) s cur caps = Some r.
Proof.
  intros Hcl H.
  change (Regexp.run (Regexp.Star cl1 :: Regexp.Plus cl2 :: p) s cur caps)
    with (Regexp.star cl1
            (fun s cur => Regexp.run (Regexp.Plus cl2 :: p) s cur caps) s cur).
  destruct s as [|d s]; [done|].
  assert (Regexp.in_class cl2 d = true) as Hd.
  { simpl in H. by destruct (Regexp.in_class cl2 d). }
  simpl Regexp.star. by rewrite (Hcl d Hd).
Qed.

(** X8: the later pattern extends the earlier one.  Every line the earlier
    revision accepts as a declaration is accepted by the later revision,
    with the same path and the same remainder. *)
Theorem X8_later_pattern_extends_earlier (line : str) (m : list str) :
  Regexp.FindStringSubmatch Early.lineRegex line = Some m ->
  Regexp.FindStringSubmatch Later.lineRegex line = Some m.
Proof.
  unfold Regexp.FindStringSubmatch, Early.lineRegex, Later.lineRegex.
  destruct line as [|c line]; [done|].
  change (Regexp.run (Regexp.Lit 76 :: ?p) (c :: line) None [])
    with (if 76 =? c then Regexp.run p line (Regexp.push c None) [] else None).
  destruct (76 =? c); [|done].
  destruct (Regexp.run (Regexp.Plus _ :: _) line _ _) as [r|] eqn:Hr; [|done].
  intros [= <-].
  rewrite (run_star_skip _ _ _ _ _ _ r); [done| |done].
  intros d Hd. simpl in *. apply space_not_directive in Hd.
  by rewrite orb_false_r.
Qed.

Lemma X8_witness :
  Regexp.FindStringSubmatch Later.lineRegex (go "L /etc/x - - - - /opt/y")
  = Some [go "L /etc/x - - - - /opt/y"; go "/etc/x"; go "- /opt/y"].
Proof.
  apply (X8_later_pattern_extends_earlier (go "L /etc/x - - - - /opt/y")).
  reflexivity.
Defined.

Lemma span_unique (f : rune -> bool) (a a' b b' : str) :
  forallb f a = true -> forallb f a' = true ->
  match b with [] => True | c :: _ => f c = false end ->
  match b' with [] => True | c :: _ => f c = false end ->
  a ++ b = a' ++ b' -> a = a' /\ b = b'.
Proof.
  revert a'. induction a as [|x a IH]; intros a' Ha Ha' Hb Hb' H.
  - destruct a' as [|y a']; [done|]. simpl in *. subst b.
    apply andb_true_iff in Ha' as [Hy _]. congruence.
  - destruct a' as [|y a']; simpl in *.
    + subst b'. apply andb_true_iff in Ha as [Hx _]. congruence.
    + injection H as -> H. apply andb_true_iff in Ha as [_ Ha].
      apply andb_true_iff in Ha' as [_ Ha'].
      destruct (IH a' Ha Ha' Hb Hb' H) as [-> ->]. done.
Qed.

Lemma blank_head w t :
  blank w -> match w ++ t with [] => True | c :: _ => Regexp.space c = true end.
Proof.
  intros [Hne Hw]. destruct w as [|c w]; [done|]. simpl in *.
  by apply andb_true_iff in Hw as [? _].
Qed.

Lemma word_head p t :
  p <> [] -> word p ->
  match p ++ t with [] => True | c :: _ => Regexp.space c = false end.
Proof.
  intros Hne Hw. destruct p as [|c p]; [done|]. unfold word in Hw. simpl in *.
  apply andb_true_iff in Hw as [? _]. by apply negb_true_iff.
Qed.

(** X9: the path of a declaration is decided by the line alone.  However
    the pattern of the later revision is matched against a line, that is,
    whichever way the repetitions share the white space, the path group is
    the same text. *)
Theorem X9_path_determined (line path1 rest1 path2 rest2 : str) :
  Later_grammar line path1 rest1 -> Later_grammar line path2 rest2 ->
  path1 = path2.
Proof.
  intros (q & w1 & w2 & f2 & w3 & f3 & w4 & f4 & w5 & -> & Hq & Hw1 & Hp & Hpw
          & Hw2 & _)
         (q' & w1' & w2' & f2' & w3' & f3' & w4' & f4' & w5' & E & Hq' & Hw1' & Hp'
          & Hpw' & Hw2' & _).
  injection E as E.
  apply (span_unique (fun c => existsb (N.eqb c) [63; 43])) in E as [_ E]; try done.
  2: { pose proof (blank_head w1 (path1 ++ w2 ++ f2 ++ w3 ++ f3 ++ w4 ++ f4 ++ w5 ++ rest1)
                     Hw1) as H.
       destruct (w1 ++ _); [done|]. apply space_not_directive in H.
       simpl. by rewrite orb_false_r. }
  2: { pose proof (blank_head w1' (path2 ++ w2' ++ f2' ++ w3' ++ f3' ++ w4' ++ f4'
                                    ++ w5' ++ rest2) Hw1') as H.
       destruct (w1' ++ _); [done|]. apply space_not_directive in H.
       simpl. by rewrite orb_false_r. }
  apply (span_unique Regexp.space) in E as [_ E];
    [|apply Hw1|apply Hw1'|by apply word_head|by apply word_head].
  apply (span_unique (fun c => negb (Regexp.space c))) in E as [E _]; try done.
  - pose proof (blank_head w2 (f2 ++ w3 ++ f3 ++ w4 ++ f4 ++ w5 ++ rest1) Hw2) as H.
    destruct (w2 ++ _); [done|]. by rewrite H.
  - pose proof (blank_head w2' (f2' ++ w3' ++ f3' ++ w4' ++ f4' ++ w5' ++ rest2) Hw2') as H.
    destruct (w2' ++ _); [done|]. by rewrite H.
Qed.

Lemma X9_witness :
  Later_grammar (go "L /a     x") (go "/a") (go "x")
  /\ Later_grammar (go "L /a     x") (go "/a") (go " x")
  /\ go "/a" = go "/a".
Proof.
  assert (Later_grammar (go "L /a     x") (go "/a") (go "x")) as HA.
  { exists [], (go " "), (go " "), [], (go " "), [], (go " "), [], (go "  ").
    unfold blank, word. repeat split; try reflexivity; discriminate. }
  assert (Later_grammar (go "L /a     x") (go "/a") (go " x")) as HB.
  { exists [], (go " "), (go " "), [], (go " "), [], (go " "), [], (go " ").
    unfold blank, word. repeat split; try reflexivity; discriminate. }
  split; [exact HA|]. split; [exact HB|].
  exact (X9_path_determined _ _ _ _ _ HA HB).
Defined.

(** ** The target of a configuration line *)

Lemma TrimLeftFunc_split f s :
  exists w, s = w ++ Strings.TrimLeftFunc f s /\ forallb f w = true.
Proof.
  induction s as [|c s (w & Hs & Hw)]; simpl.
  - by exists [].
  - destruct (f c) eqn:Hc.
    + exists (c :: w). simpl. rewrite Hc, Hw. split; [by f_equal | done].
    + by exists [].
Qed.



Lemma forallb_rev_true {A} (f : A -> bool) (w : list A) :
  forallb f w = true -> forallb f (rev w) = true.
Proof.
  induction w as [|c w IH]; simpl; [done|].
  intros [Hc Hw]%andb_true_iff. rewrite forallb_app, IH by done. simpl.
  by rewrite Hc.
Qed.

Lemma TrimRightFunc_split f s :
  exists w, s = Strings.TrimRightFunc f s ++ w /\ forallb f w = true.
Proof.
  unfold Strings.TrimRightFunc.
  destruct (TrimLeftFunc_split f (rev s)) as (w & Hs & Hw).
  exists (rev w). split.
  - rewrite <- rev_app_distr, <- Hs. by rewrite rev_involutive.
  - by apply forallb_rev_true.
Qed.








(** ** Resolved targets *)

Lemma IsAbs_cons x : Filepath.IsAbs (Filepath.Separator :: x) = true.
Proof. unfold Filepath.IsAbs. simpl. by destruct x. Qed.

Lemma Clean_abs p : Filepath.IsAbs p = true -> Filepath.IsAbs (Filepath.Clean p) = true.
Proof.
  intros [t ->]%(HasPrefix_app p [Filepath.Separator]).
  unfold Filepath.Clean. simpl. apply IsAbs_cons.
Qed.

Lemma upto_last_sep_abs p :
  Filepath.IsAbs p = true -> Filepath.IsAbs (Filepath.upto_last_sep p) = true.
Proof.
  intros [t ->]%(HasPrefix_app p [Filepath.Separator]).
  destruct (TrimRightFunc_split (fun c => negb (c =? Filepath.Separator))
              ([Filepath.Separator] ++ t)) as (w & Hs & Hw).
  change (Strings.TrimRightFunc _ _)
    with (Filepath.upto_last_sep ([Filepath.Separator] ++ t)) in Hs.
  destruct (Filepath.upto_last_sep ([Filepath.Separator] ++ t)) as [|c u].
  - simpl in Hs. subst w. simpl in Hw. done.
  - injection Hs as <- _. apply IsAbs_cons.
Qed.

Lemma Dir_abs p : Filepath.IsAbs p = true -> Filepath.IsAbs (Filepath.Dir p) = true.
Proof. intros H. unfold Filepath.Dir. by apply Clean_abs, upto_last_sep_abs. Qed.

Lemma Join_abs a b : Filepath.IsAbs a = true -> Filepath.IsAbs (Filepath.Join a b) = true.
Proof.
  intros [t ->]%(HasPrefix_app a [Filepath.Separator]).
  unfold Filepath.Join. simpl. apply Clean_abs, IsAbs_cons.
Qed.

(** X11: for a symlink path that is absolute, the path whose existence is
    checked is absolute whatever the target: an absolute target is taken as
    it is and a relative one is resolved under the directory of the symlink
    path. *)
Theorem X11_resolved_target_absolute (symlinkPath target : str) :
  Filepath.IsAbs symlinkPath = true ->
  Filepath.IsAbs (Later.resolveTargetPath symlinkPath target) = true.
Proof.
  intros H. unfold Later.resolveTargetPath.
  destruct (Filepath.IsAbs target) eqn:Ht; [done|].
  by apply Clean_abs, Join_abs, Dir_abs.
Qed.

Lemma X11_witness :
  Filepath.IsAbs (Later.resolveTargetPath (go "/etc/alternatives/x") (go "../../opt/y"))
  = true.
Proof.
  apply (X11_resolved_target_absolute (go "/etc/alternatives/x") (go "../../opt/y")).
  reflexivity.
Defined.

(** ** Quotes *)

Lemma TrimFunc_split f s :
  exists a b, s = a ++ Strings.TrimFunc f s ++ b
              /\ forallb f a = true /\ forallb f b = true.
Proof.
  unfold Strings.TrimFunc.
  destruct (TrimLeftFunc_split f s) as (a & Ha & Hfa).
  destruct (TrimRightFunc_split f (Strings.TrimLeftFunc f s)) as (b & Hb & Hfb).
  exists a, b. split; [|done]. by rewrite <- Hb.
Qed.

Lemma TrimFunc_last f s t c :
  Strings.TrimFunc f s = t ++ [c] -> f c = false.
Proof.
  unfold Strings.TrimFunc, Strings.TrimRightFunc. intros H.
  apply (f_equal (@rev _)) in H. rewrite rev_involutive, rev_unit in H.
  by apply TrimLeftFunc_head in H.
Qed.

Lemma TrimFunc_head f s c t :
  Strings.TrimFunc f s = c :: t -> f c = false.
Proof.
  unfold Strings.TrimFunc. intros H.
  destruct (TrimRightFunc_split f (Strings.TrimLeftFunc f s)) as (w & Hs & _).
  rewrite H in Hs. simpl in Hs. by apply TrimLeftFunc_head in Hs.
Qed.

Lemma forallb_weaken {A} (f g : A -> bool) (l : list A) :
  (forall x, f x = true -> g x = true) -> forallb f l = true -> forallb g l = true.
Proof.
  intros Hfg. induction l as [|x l IH]; simpl; [done|].
  intros [Hx Hl]%andb_true_iff. by rewrite (Hfg x Hx), IH.
Qed.

(** X12: [cleanQuotes] only strips the two ends of its argument, and only
    of white space and quote characters: the argument is the result between
    two runs of such characters.  The result neither begins nor ends with a
    single quote. *)
Theorem X12_cleanQuotes_strips_ends (s : str) :
  (exists a b, s = a ++ cleanQuotes s ++ b
               /\ forallb strippable a = true /\ forallb strippable b = true)
  /\ (forall t, cleanQuotes s <> squote :: t)
  /\ (forall t, cleanQuotes s <> t ++ [squote]).
Proof.
  unfold cleanQuotes, Strings.Trim, Strings.TrimSpace. split; [|split].
  - destruct (TrimFunc_split Strings.IsSpace s) as (a1 & b1 & H1 & Ha1 & Hb1).
    set (s1 := Strings.TrimFunc Strings.IsSpace s) in *.
    destruct (TrimFunc_split (fun c => existsb (N.eqb c) [dquote]) s1)
      as (a2 & b2 & H2 & Ha2 & Hb2).
    set (s2 := Strings.TrimFunc _ s1) in *.
    destruct (TrimFunc_split (fun c => existsb (N.eqb c) [squote]) s2)
      as (a3 & b3 & H3 & Ha3 & Hb3).
    set (s3 := Strings.TrimFunc _ s2) in *.
    exists (a1 ++ a2 ++ a3), (b3 ++ b2 ++ b1). split.
    + rewrite H1, H2, H3. by rewrite <- !app_assoc.
    + assert (forall l, forallb Strings.IsSpace l = true ->
                        forallb strippable l = true) as W1.
      { intros l. apply forallb_weaken. intros x Hx. unfold strippable. by rewrite Hx. }
      assert (forall l, forallb (fun c => existsb (N.eqb c) [dquote]) l = true ->
                        forallb strippable l = true) as W2.
      { intros l. apply forallb_weaken. intros x Hx. unfold strippable.
        simpl in Hx. rewrite orb_false_r in Hx. rewrite Hx. by rewrite orb_true_r. }
      assert (forall l, forallb (fun c => existsb (N.eqb c) [squote]) l = true ->
                        forallb strippable l = true) as W3.
      { intros l. apply forallb_weaken. intros x Hx. unfold strippable.
        simpl in Hx. rewrite orb_false_r in Hx. rewrite Hx. by rewrite orb_true_r. }
      rewrite !forallb_app.
      by rewrite (W1 a1 Ha1), (W2 a2 Ha2), (W3 a3 Ha3), (W3 b3 Hb3), (W2 b2 Hb2),
        (W1 b1 Hb1).
  - intros t H. apply TrimFunc_head in H. done.
  - intros t H. apply TrimFunc_last in H. done.
Qed.

(** ** Factory defaults under /etc and /var *)

Lemma HasPrefix_self_app (p x : str) : Strings.HasPrefix (p ++ x) p = true.
Proof. apply HasPrefix_app. by exists x. Qed.

(** X13: every path under [/etc/] has its factory default under
    [/usr/share/factory/etc/], with the same path below: the factory
    default of [/etc/x] is [/usr/share/factory/etc/x] for every [x],
    whatever its last element.  A path under [/var/] whose last element is
    not [etc] goes to [/usr/share/factory/var/] in the same way.  Every
    factory default begins with [/usr/share/factory]. *)
Theorem X13_factoryTarget_etc_var (x : str) :
  factoryTarget (go "/etc/" ++ x) = go "/usr/share/factory/etc/" ++ x
  /\ (Filepath.Base (go "/var/" ++ x) <> go "etc" ->
      factoryTarget (go "/var/" ++ x) = go "/usr/share/factory/var/" ++ x)
  /\ Strings.HasPrefix (factoryTarget x) (go "/usr/share/factory") = true.
Proof.
  split; [|split].
  - unfold factoryTarget, Strings.TrimPrefix.
    rewrite HasPrefix_self_app, orb_true_r. by rewrite drop_app_length.
  - intros Hb. apply eqb_neq in Hb. unfold factoryTarget, Strings.TrimPrefix.
    rewrite Hb.
    replace (Strings.HasPrefix (go "/var/" ++ x) (go "/etc/")) with false by done.
    rewrite HasPrefix_self_app, orb_true_r. simpl orb. cbv iota.
    by rewrite drop_app_length.
  - unfold factoryTarget.
    destruct (_ || _); [|destruct (_ || _)]; apply HasPrefix_app.
    + by exists (go "/etc/" ++ Strings.TrimPrefix x (go "/etc/")).
    + by exists (go "/var/" ++ Strings.TrimPrefix x (go "/var/")).
    + by exists x.
Qed.

Lemma X13_witness :
  factoryTarget (go "/var/lib/x") = go "/usr/share/factory/var/lib/x".
Proof.
  apply (X13_factoryTarget_etc_var (go "lib/x")). discriminate.
Defined.

(** ** Optional declarations with an explicit target *)

(** X14: in the later revision an optional declaration (directive L?)
    whose explicit target does not exist is only warned about:
    [processLine] returns nil, leaves [linkedDirs] exactly as it was, and
    the last thing it logs is the warning that names the resolved target. *)
Theorem X14_optional_explicit_missing (fs : FS) (line : str) (linkedDirs : dirs)
    (m : list str) :
  Regexp.FindStringSubmatch Later.lineRegex line = Some m ->
  Later.directive line = go "L?" ->
  Later.targetOf (nth 2 m []) <> [] ->
  Later.targetOf (nth 2 m []) <> go "-" ->
  fs_stat fs (Later.resolveTargetPath (nth 1 m []) (Later.targetOf (nth 2 m []))) = false ->
  val (Later.processLine fs line linkedDirs) = (None, linkedDirs)
  /\ last (log (Later.processLine fs line linkedDirs))
     = Some (Stdout (MTargetMissingOptional
                       (Later.resolveTargetPath (nth 1 m [])
                          (Later.targetOf (nth 2 m []))))).
Proof.
  intros Hm Hd He Hn Hs. unfold Later.processLine.
  rewrite (Later_match_L line) by (by rewrite Hm). rewrite Hm, Hd. simpl negb. cbv iota.
  apply eqb_neq in He, Hn. rewrite He, Hn. simpl orb. cbv iota.
  replace (Strings.eqb (go "L?") (go "L?")) with true by done.
  replace (Strings.eqb (go "L?") (go "L+")) with false by done.
  cbv [val log bind Printf Stat ret fst snd Later.finish]. rewrite Hs.
  destruct (Strings.eqb (Later.resolveTargetPath _ _) _); split; reflexivity.
Qed.

Lemma X14_witness :
  val (Later.processLine fs_nothing (go "L? /etc/x - - - - /opt/missing") ∅) = (None, ∅).
Proof.
  apply (X14_optional_explicit_missing fs_nothing (go "L? /etc/x - - - - /opt/missing") ∅
           [go "L? /etc/x - - - - /opt/missing"; go "/etc/x"; go "- /opt/missing"]);
    [reflexivity | reflexivity | discriminate | discriminate | reflexivity].
Defined.

(** ** The filter of the earlier [main] *)

(** X15: in the earlier revision the filter of [main] on L? and L+ lines
    changes nothing: handed such a line, [processLine] itself would skip it
    in silence, since its pattern wants white space right after the L. *)
Theorem X15_early_skips_marked_lines (fs : FS) (line : str) (linkedDirs : dirs) :
  Strings.HasPrefix line (go "L?") = true \/ Strings.HasPrefix line (go "L+") = true ->
  Early.processLine fs line linkedDirs = ret (None, linkedDirs).
Proof.
  intros H. apply Early_processLine_unmatched.
  destruct (Regexp.FindStringSubmatch Early.lineRegex line) as [m|] eqn:Hm; [|done].
  destruct (Early_match_plain line) as (_ & H1 & H2); [by rewrite Hm|].
  destruct H; congruence.
Qed.

Lemma X15_witness :
  Early.processLine fs_nothing (go "L+ /etc/x - - - - /opt/y") ∅ = ret (None, ∅).
Proof.
  apply (X15_early_skips_marked_lines fs_nothing (go "L+ /etc/x - - - - /opt/y") ∅).
  right. reflexivity.
Defined.

(** ** Where the tracked files come from *)

Lemma Later_processLine_dirs fs line linkedDirs m :
  Regexp.FindStringSubmatch Later.lineRegex line = Some m ->
  snd (val (Later.processLine fs line linkedDirs))
  = if Later_records fs line m
    then record (Filepath.Dir (Later_checked m)) (Filepath.Base (Later_checked m))
           linkedDirs
    else linkedDirs.
Proof.
  intros Hm. unfold Later.processLine, Later_records, Later_default, Later_checked.
  rewrite (Later_match_L line) by (by rewrite Hm). rewrite Hm. simpl negb. cbv iota.
  destruct (_ || _) eqn:Ht; unfold Later.track;
    cbv [val bind Printf Stat ret fst snd Later.finish];
    destruct (fs_stat fs _); simpl orb; simpl andb;
    destruct (Strings.eqb (Later.directive line) (go "L?")); simpl orb; simpl andb;
    try destruct (Later.isBaseDir _); simpl negb; cbv iota;
    repeat match goal with
           | |- context [if ?b then _ else _] => destruct b
           end; reflexivity.
Qed.

Lemma Later_processLine_tracks fs line linkedDirs dir name :
  linked (snd (val (Later.processLine fs line linkedDirs))) dir name = true
  <-> linked linkedDirs dir name = true \/ Later_tracks fs line dir name.
Proof.
  unfold Later_tracks.
  destruct (Regexp.FindStringSubmatch Later.lineRegex line) as [m|] eqn:Hm.
  - rewrite (Later_processLine_dirs fs line linkedDirs m Hm).
    destruct (Later_records fs line m) eqn:Hr.
    + rewrite linked_record, orb_true_iff, andb_true_iff, !bool_decide_eq_true.
      split.
      * intros [[<- <-]|?]; [right|by left]. exists m. done.
      * intros [?|(m' & [= <-] & _ & -> & ->)]; [by right | by left].
    + split; [by left|]. intros [?|(m' & [= <-] & ? & _)]; [done|congruence].
  - rewrite Later_processLine_unmatched by done. simpl.
    split; [by left|]. by intros [?|(m' & [=] & _)].
Qed.

(** X16: where the tracked files of the later revision come from.  After
    the scan of the configuration, a name is recorded as linked in a
    directory exactly when some line of a configuration file that could be
    opened is, once trimmed, a declaration whose checked path has that
    directory and that base name, lies outside the base directories, and
    either exists or is the missing factory default of an optional
    declaration. *)
Theorem X16_tracked_files (fs : FS) (dir name : str) :
  linked (snd (val (Later.scanConfigs fs))) dir name = true
  <-> exists file lines text,
        file ∈ fs_glob fs confPattern /\ fs_open fs file = Some lines
        /\ text ∈ lines /\ Later_tracks fs (Strings.TrimSpace text) dir name.
Proof.
  unfold Later.scanConfigs. rewrite val_bind.
  rewrite (forM_flag (fun st : Z * dirs => linked (snd st) dir name = true)
             (fun file => exists lines text,
                  fs_open fs file = Some lines /\ text ∈ lines
                  /\ Later_tracks fs (Strings.TrimSpace text) dir name)).
  - simpl. split.
    + intros [?|(file & Hf & lines & text & H)]; [done|]. eauto 8.
    + intros (file & lines & text & Hf & H). right. eauto 8.
  - intros file st. unfold Later.scanFile. rewrite val_bind. simpl.
    destruct (fs_open fs file) as [lines|] eqn:Ho.
    + rewrite (forM_flag (fun st : Z * dirs => linked (snd st) dir name = true)
                 (fun text => Later_tracks fs (Strings.TrimSpace text) dir name)).
      * split.
        -- intros [?|(text & Hl & H)]; [by left|]. right. eauto.
        -- intros [?|(lines' & text & [= <-] & Hl & H)]; [by left|]. right. eauto.
      * intros text st'.
        destruct (Strings.HasPrefix (Strings.TrimSpace text) (go "L")) eqn:HL.
        -- rewrite Later_scanLine_parsed by done. unfold parsed. rewrite val_bind.
           simpl. apply Later_processLine_tracks.
        -- rewrite Later_scanLine_ignored by done. simpl.
           split; [by left|]. intros [?|(m & Hm & _)]; [done|].
           rewrite (Later_match_L (Strings.TrimSpace text)) in HL; [done|by rewrite Hm].
    + simpl. split; [auto|]. intros [?|(lines & text & [=] & _)]. done.
Qed.

Lemma X16_witness :
  linked (snd (val (Later.scanConfigs
                      (fs_one_conf [go "  L /etc/x - - - - /opt/app/b"]
                                   (fun _ => true) (fun _ => None)))))
    (go "/opt/app") (go "b") = true.
Proof.
  apply (proj2 (X16_tracked_files
                  (fs_one_conf [go "  L /etc/x - - - - /opt/app/b"]
                               (fun _ => true) (fun _ => None))
                  (go "/opt/app") (go "b"))).
  exists (go "/usr/lib/tmpfiles.d/a.conf"), [go "  L /etc/x - - - - /opt/app/b"],
         (go "  L /etc/x - - - - /opt/app/b").
  split; [left|]. split; [reflexivity|]. split; [left|].
  exists [go "L /etc/x - - - - /opt/app/b"; go "/etc/x"; go "- /opt/app/b"].
  repeat split; reflexivity.
Defined.

Lemma X7_witness :
  Stdout (MSummaryDir (go "/srv/.git") true)
  ∈ log (Early.printSummary (fs_one_conf [] (fun _ => true) git_listing)
           {[ go "/srv/.git" := {[ go "config" := true ]} ]} ∅).
Proof.
  apply (proj1 (X7_summary_flags_reported
                  (fs_one_conf [] (fun _ => true) git_listing)
                  {[ go "/srv/.git" := {[ go "config" := true ]} ]} ∅
                  (go "/srv/.git"))).
  apply Early_check_reported. exists {[ go "config" := true ]}.
  split; [reflexivity|]. split; [reflexivity|].
  exists {| Name := go "HEAD"; IsDir := false |}.
  split; [left | repeat split; reflexivity].
Defined.

(** * The exit code and the errors printed *)

Lemma forM_printed {A S} (f : event -> bool) (Q : A -> Prop)
    (body : A -> S -> W S) (xs : list A) (s : S) :
  (forall x s, printed f (log (body x s)) <-> Q x) ->
  printed f (log (forM xs body s)) <-> exists x, x ∈ xs /\ Q x.
Proof.
  unfold printed. intros Hb. revert s. induction xs as [|x xs IH]; intros s; simpl.
  - split; [done | by intros (? & ?%elem_of_nil & _)].
  - rewrite log_bind, existsb_app, orb_true_iff, IH, Hb. split.
    + intros [?|(y & Hy & ?)]; [exists x | exists y]; split; try done; [left | by right].
    + intros (y & [->|Hy]%elem_of_cons & ?); [by left | right; eauto].
Qed.

Lemma quiet_of_kind (P f : event -> bool) (l : list event) :
  (forall e, P e = true -> f e = false) ->
  Forall (fun e => P e = true) l -> ~ printed f l.
Proof.
  unfold printed. intros HP Hl. induction Hl as [|e l He _ IH]; simpl; [done|].
  rewrite (HP e He). done.
Qed.

Lemma printed_app f l1 l2 : printed f (l1 ++ l2) <-> printed f l1 \/ printed f l2.
Proof. unfold printed. by rewrite existsb_app, orb_true_iff. Qed.

Lemma printed_incomplete l : printed incomplete_error l <-> exists d, reported d l.
Proof.
  unfold printed, reported. rewrite existsb_exists. split.
  - intros (e & He & Hf). destruct e as [c|[]|m]; try done.
    eexists _, _. by apply list_elem_of_In.
  - intros (d & ms & H). exists (Stdout (MIncomplete d ms)).
    split; [by apply list_elem_of_In | done].
Qed.

Lemma loadIgnoreFiles_kind fs :
  Forall (fun e => ignore_event e = true) (log (loadIgnoreFiles fs)).
Proof.
  unfold loadIgnoreFiles. rewrite log_bind. apply Forall_app. split.
  - by repeat constructor.
  - apply forM_log. intros file ign _.
    rewrite log_bind. apply Forall_app. split; [by repeat constructor|].
    destruct (val _) as [lines|]; [|constructor].
    apply forM_log. intros text ign' _.
    destruct (_ || _); by repeat constructor.
Qed.

Lemma summarize_kind dir linkedFiles ignoredFiles entries :
  Forall (fun e => summary_event e = true)
         (log (summarize dir linkedFiles ignoredFiles entries)).
Proof.
  unfold summarize.
  destruct (classify _ _ _ _) as [[missing ignored] actualLinked].
  destruct missing, ignored, actualLinked; by repeat constructor.
Qed.

Lemma Later_printSummary_kind fs linkedDirs ignoredFiles :
  Forall (fun e => summary_event e = true)
         (log (Later.printSummary fs linkedDirs ignoredFiles)).
Proof.
  unfold Later.printSummary. rewrite log_bind. apply Forall_app. split.
  - by repeat constructor.
  - apply forM_log. intros [dir linkedFiles] b _.
    destruct (Later.skipped dir); [constructor|].
    rewrite log_bind. apply Forall_app. split; [by repeat constructor|].
    destruct (val _) as [entries|]; [apply summarize_kind | by repeat constructor].
Qed.

Lemma Later_check_kind fs linkedDirs ignoredFiles :
  Forall (fun e => check_event e = true)
         (log (Later.checkDirectoryCompleteness fs linkedDirs ignoredFiles)).
Proof.
  unfold Later.checkDirectoryCompleteness. rewrite log_bind. apply Forall_app. split.
  - apply forM_log. intros [dir linkedFiles] b _.
    unfold Later.checkDirectory. crunch_log; by repeat constructor.
  - destruct (val _); constructor.
Qed.

Lemma Later_processLine_missing fs line linkedDirs :
  printed missing_error (log (Later.processLine fs line linkedDirs))
  <-> Later_fails fs line.
Proof.
  rewrite <- (Later_processLine_error fs line linkedDirs).
  unfold printed, Later.processLine. crunch_log; simpl; split; done.
Qed.

Lemma Later_processLine_no_open_error fs line linkedDirs :
  ~ printed open_error (log (Later.processLine fs line linkedDirs)).
Proof. unfold printed, Later.processLine. crunch_log; simpl; done. Qed.

Lemma Later_processLine_no_incomplete fs line linkedDirs :
  ~ printed incomplete_error (log (Later.processLine fs line linkedDirs)).
Proof. unfold printed, Later.processLine. crunch_log; simpl; done. Qed.

Lemma Later_scanLine_log fs text st :
  log (Later.scanLine fs text st)
  = if Strings.HasPrefix (Strings.TrimSpace text) (go "L")
    then log (Later.processLine fs (Strings.TrimSpace text) (snd st))
    else [].
Proof.
  destruct (Strings.HasPrefix (Strings.TrimSpace text) (go "L")) eqn:HL.
  - rewrite Later_scanLine_parsed by done. unfold parsed.
    rewrite log_bind. simpl. by rewrite app_nil_r.
  - by rewrite Later_scanLine_ignored.
Qed.

Lemma Later_scanLine_missing fs text st :
  printed missing_error (log (Later.scanLine fs text st))
  <-> Later_fails fs (Strings.TrimSpace text).
Proof.
  rewrite Later_scanLine_log.
  destruct (Strings.HasPrefix (Strings.TrimSpace text) (go "L")) eqn:HL.
  - apply Later_processLine_missing.
  - split; [done|]. intros (m & Hm & _).
    rewrite (Later_match_L (Strings.TrimSpace text)) in HL; [done|by rewrite Hm].
Qed.

Lemma Later_scanLine_quiet f fs text st :
  (forall line linkedDirs, ~ printed f (log (Later.processLine fs line linkedDirs))) ->
  ~ printed f (log (Later.scanLine fs text st)).
Proof.
  intros H. rewrite Later_scanLine_log. destruct (Strings.HasPrefix _ _); [apply H|done].
Qed.

Lemma Later_scanFile_log fs file st :
  log (Later.scanFile fs file st)
  = Sys (SOpen file)
    :: match fs_open fs file with
       | None => [Stderr (MOpenError file)]
       | Some lines => log (forM lines (Later.scanLine fs) st)
       end.
Proof.
  unfold Later.scanFile, Open. rewrite log_bind. simpl.
  by destruct (fs_open fs file).
Qed.

Lemma forM_quiet {A S} (f : event -> bool) (body : A -> S -> W S) (xs : list A) (s : S) :
  (forall x s, ~ printed f (log (body x s))) -> ~ printed f (log (forM xs body s)).
Proof.
  intros H. rewrite (forM_printed f (fun _ => False)).
  - by intros (? & _ & ?).
  - intros x s'. split; [apply H | done].
Qed.

Lemma Later_scanConfigs_printed fs :
  (printed open_error (log (Later.scanConfigs fs))
   <-> exists file, file ∈ fs_glob fs confPattern /\ fs_open fs file = None)
  /\ (printed missing_error (log (Later.scanConfigs fs))
      <-> exists file lines text,
            file ∈ fs_glob fs confPattern /\ fs_open fs file = Some lines
            /\ text ∈ lines /\ Later_fails fs (Strings.TrimSpace text))
  /\ ~ printed incomplete_error (log (Later.scanConfigs fs)).
Proof.
  unfold Later.scanConfigs, Glob. rewrite log_bind. simpl val. simpl log.
  split; [|split].
  - rewrite printed_app.
    rewrite (forM_printed open_error (fun file => fs_open fs file = None)).
    + split; [intros [?|?]; done | by right].
    + intros file st. rewrite Later_scanFile_log.
      destruct (fs_open fs file) as [lines|]; unfold printed; simpl; [|done].
      split; [|done]. intros H. exfalso. revert H.
      apply forM_quiet. intros text st'.
      apply Later_scanLine_quiet, Later_processLine_no_open_error.
  - rewrite printed_app.
    rewrite (forM_printed missing_error
               (fun file => exists lines text,
                    fs_open fs file = Some lines /\ text ∈ lines
                    /\ Later_fails fs (Strings.TrimSpace text))).
    + split.
      * intros [?|(file & Hf & lines & text & H)]; [done|]. eauto 8.
      * intros (file & lines & text & Hf & H). right. eauto 8.
    + intros file st. rewrite Later_scanFile_log.
      destruct (fs_open fs file) as [lines|].
      * change (printed missing_error (Sys (SOpen file) :: ?l))
          with (printed missing_error l).
        rewrite (forM_printed missing_error
                   (fun text => Later_fails fs (Strings.TrimSpace text))).
        -- split.
           ++ intros (text & Hl & H). eauto.
           ++ intros (lines' & text & [= <-] & Hl & H). eauto.
        -- intros text st'. apply Later_scanLine_missing.
      * unfold printed. simpl. split; [done|]. by intros (? & ? & [=] & _).
  - rewrite printed_app. intros [?|H]; [done|]. revert H.
    apply forM_quiet. intros file st. rewrite Later_scanFile_log.
    destruct (fs_open fs file) as [lines|]; [|done].
    change (printed incomplete_error (Sys (SOpen file) :: ?l))
      with (printed incomplete_error l).
    apply forM_quiet. intros text st'.
    apply Later_scanLine_quiet, Later_processLine_no_incomplete.
Qed.

Lemma Later_main_log fs :
  log (Later.main fs)
  = log (Later.scanConfigs fs)
    ++ log (loadIgnoreFiles fs)
    ++ log (Later.checkDirectoryCompleteness fs (snd (val (Later.scanConfigs fs)))
              (val (loadIgnoreFiles fs)))
    ++ log (Later.printSummary fs (snd (val (Later.scanConfigs fs)))
              (val (loadIgnoreFiles fs))).
Proof.
  unfold Later.main. rewrite log_bind.
  destruct (val (Later.scanConfigs fs)) as [exitCode linkedDirs].
  rewrite !log_bind. simpl. by rewrite app_nil_r.
Qed.

(** In the later revision every cause of a nonzero exit code is printed,
    and nothing else is printed as an error: a file that cannot be opened is
    reported on standard error, a declaration that is not optional and
    whose target is missing is reported as a missing target or factory
    target, an incomplete directory is reported with its missing files; the
    exit code is not 0 exactly when one of these messages was printed. *)
Lemma Later_errors_printed (fs : FS) :
  (printed open_error (log (Later.main fs))
   <-> exists file, file ∈ fs_glob fs confPattern /\ fs_open fs file = None)
  /\ (printed missing_error (log (Later.main fs))
      <-> exists file lines text,
            file ∈ fs_glob fs confPattern /\ fs_open fs file = Some lines
            /\ text ∈ lines /\ Later_fails fs (Strings.TrimSpace text))
  /\ (printed incomplete_error (log (Later.main fs))
      <-> exists dir linkedFiles,
            snd (val (Later.scanConfigs fs)) !! dir = Some linkedFiles
            /\ incompleteDir Later.skipped fs (val (loadIgnoreFiles fs))
                 dir linkedFiles)
  /\ (val (Later.main fs) <> 0%Z
      <-> printed open_error (log (Later.main fs))
          \/ printed missing_error (log (Later.main fs))
          \/ printed incomplete_error (log (Later.main fs))).
Proof.
  destruct (Later_scanConfigs_printed fs) as (Ho & Hm & Hi).
  pose proof (quiet_of_kind ignore_event open_error _ (fun e => ltac:(by destruct e as [[]|[]|[]]))
                (loadIgnoreFiles_kind fs)) as Io.
  pose proof (quiet_of_kind ignore_event missing_error _ (fun e => ltac:(by destruct e as [[]|[]|[]]))
                (loadIgnoreFiles_kind fs)) as Im.
  pose proof (quiet_of_kind ignore_event incomplete_error _ (fun e => ltac:(by destruct e as [[]|[]|[]]))
                (loadIgnoreFiles_kind fs)) as Ii.
  set (ld := snd (val (Later.scanConfigs fs))) in *.
  set (ign := val (loadIgnoreFiles fs)) in *.
  pose proof (quiet_of_kind check_event open_error _ (fun e => ltac:(by destruct e as [[]|[]|[]]))
                (Later_check_kind fs ld ign)) as Co.
  pose proof (quiet_of_kind check_event missing_error _ (fun e => ltac:(by destruct e as [[]|[]|[]]))
                (Later_check_kind fs ld ign)) as Cm.
  pose proof (quiet_of_kind summary_event open_error _ (fun e => ltac:(by destruct e as [[]|[]|[]]))
                (Later_printSummary_kind fs ld ign)) as So.
  pose proof (quiet_of_kind summary_event missing_error _ (fun e => ltac:(by destruct e as [[]|[]|[]]))
                (Later_printSummary_kind fs ld ign)) as Sm.
  pose proof (quiet_of_kind summary_event incomplete_error _ (fun e => ltac:(by destruct e as [[]|[]|[]]))
                (Later_printSummary_kind fs ld ign)) as Si.
  assert (printed incomplete_error (log (Later.checkDirectoryCompleteness fs ld ign))
          <-> exists dir linkedFiles,
                ld !! dir = Some linkedFiles
                /\ incompleteDir Later.skipped fs ign dir linkedFiles) as Ci.
  { rewrite printed_incomplete. split.
    - intros (d & (lf & H)%Later_check_reported). eauto.
    - intros (d & lf & H). exists d. apply Later_check_reported. eauto. }
  assert (printed open_error (log (Later.main fs))
          <-> exists file, file ∈ fs_glob fs confPattern /\ fs_open fs file = None) as Mo.
  { rewrite Later_main_log, !printed_app. fold ld ign. tauto. }
  assert (printed missing_error (log (Later.main fs))
          <-> exists file lines text,
                file ∈ fs_glob fs confPattern /\ fs_open fs file = Some lines
                /\ text ∈ lines /\ Later_fails fs (Strings.TrimSpace text)) as Mm.
  { rewrite Later_main_log, !printed_app. fold ld ign. tauto. }
  assert (printed incomplete_error (log (Later.main fs))
          <-> exists dir linkedFiles,
                ld !! dir = Some linkedFiles
                /\ incompleteDir Later.skipped fs ign dir linkedFiles) as Mi.
  { rewrite Later_main_log, !printed_app. fold ld ign. tauto. }
  split; [done|]. split; [done|]. split; [done|].
  rewrite Mo, Mm, Mi. apply Later_exit_causes.
Qed.

(** C2, at a configuration made of the one line [L /etc/x - - - - /opt/y]
    on a filesystem where the target [/opt/y] exists, alone in [/opt]: the
    configuration file opens, the declaration is not optional and its target
    exists, and no tracked directory is incomplete, so the exit code should
    be 0, and it is in the later revision.  The earlier revision takes the
    whole remainder of the line after three placeholders, [- /opt/y], for
    the target, looks for that path, reports it missing and exits with 1. *)
Theorem C2_early_exit_with_target_present :
  let line := go "L /etc/x - - - - /opt/y" in
  let fs := fs_one_conf [line] only_opt_y opt_listing in
  fs_stat fs (go "/opt/y") = true
  /\ fs_open fs (go "/usr/lib/tmpfiles.d/a.conf") = Some [line]
  /\ Regexp.FindStringSubmatch Early.lineRegex line
     = Some [line; go "/etc/x"; go "- /opt/y"]
  /\ syscalls (log (Early.processLine fs line ∅)) = [SStat (go "- /opt/y")]
  /\ printed missing_error (log (Early.main fs))
  /\ ~ printed open_error (log (Early.main fs))
  /\ ~ printed incomplete_error (log (Early.main fs))
  /\ val (Early.main fs) = 1%Z
  /\ syscalls (log (Later.processLine fs line ∅)) = [SStat (go "/opt/y")]
  /\ val (Later.main fs) = 0%Z.
Proof.
  unfold printed. repeat split; try (vm_compute; reflexivity);
    vm_compute; discriminate.
Qed.

(** * The grammar of a declaration, in full *)









